(** * home-gallery: the API-server extractor stage and the file-index writer

    A shallow embedding of
    - the extractor module that sends a preview image of every eligible entry
      to the API server ([apiServerEntry], [logPublicApiPrivacyHint],
      [isDisabled], [similarEmbeddings], [objectDetection], [faceDetection]),
    - [packages/index/src/write.js] ([writeIndex]),
    followed by the properties of both that the specification states.

    JavaScript values are modelled by the types the code uses them at:
    the error counter is a [nat] (it starts at 0 and only ever changes by
    [++] and a guarded [--]), HTTP status codes and timeouts are [Z], strings
    are [string], file contents are byte lists, arrays that are mutated are
    references into a heap.

    Effects (the log, HTTP requests, storage accesses, callback invocations)
    are recorded in a trace that is threaded through a state monad.  A
    function that takes a callback returns what is left to do once the call
    it has issued completes, so that a task can be run on its own or
    interleaved, turn by turn, with the other tasks in flight. *)

From Stdlib Require Import ZArith String List Lia Sorted Permutation OrdersEx.
From stdpp Require Import base option list strings pretty gmap.

(** ** Constants of the extractor module *)

Definition ERROR_THRESHOLD : nat := 5.
Definition PUBLIC_API_SERVER : string := "https://api.home-gallery.org".
Definition DOCUMENATION_URL : string := "https://docs.home-gallery.org".

(** ** Data *)

(** An entry of the stream.  The module reads [entry.type] and renders the
    entry in log messages ([toString] is the result of that rendering). *)
Record Entry := { type : string; toString : string }.

(** An error value, as its rendering in a template string. *)
Definition Err := string.
Definition Buffer := list Byte.byte.

Inductive Level := LTrace | LDebug | LInfo | LWarn | LError.

#[global] Instance Level_eq_dec : EqDecision Level.
Proof. solve_decision. Defined.

(** The options object built in [task] for [request] ([encoding: null]
    asks for the body as a buffer, which is how [resBody] is typed below). *)
Module Options.
Record t := {
  url : string;
  method : string;
  headers : list (string * string);
  body : Buffer;
  timeout : Z
}.
End Options.

(** What [request] hands to its callback [(err, res, body)]: a truthy [err],
    or a response with its status code and body. *)
Inductive Response :=
| TransportError (err : Err)
| HttpResponse (statusCode : Z) (resBody : Buffer).

(** Observable effects, in the order they happen. *)
Inductive Event :=
| ELog (l : Level) (msg : string)
| ERequest (o : Options.t)
| ERead (e : Entry) (suffix : option string)
| EWrite (e : Entry) (suffix : string) (data : Buffer)
| ECallback (err : option Err) (data : option Entry).

(** ** The collaborators: entry storage and HTTP client

    [hasEntryFile] answers at once.  The other calls are asynchronous: the
    caller passes a callback, which the collaborator invokes once, in a later
    turn of the event loop, with its answer.  A world [W] determines the
    answer a call gets at the moment it completes, and the world after it. *)
Class EntryStore (W : Type) := {
  hasEntryFile : W -> Entry -> string -> bool;
  readAnswer : W -> Entry -> option string -> (Err + Buffer) * W;
  writeAnswer : W -> Entry -> string -> Buffer -> option Err * W
}.

Class HttpClient (W : Type) := {
  requestAnswer : W -> Options.t -> Response * W
}.

(** ** State and effects *)

(** [currentErrors] is the closure variable of [apiServerEntry]. *)
Record State (W : Type) := mkState {
  world : W;
  currentErrors : nat;
  trace : list Event
}.
Arguments mkState {W} _ _ _.
Arguments world {W} _.
Arguments currentErrors {W} _.
Arguments trace {W} _.

(** What runs within one turn of the event loop. *)
Definition Eff (W A : Type) : Type := State W -> A * State W.

#[global] Instance Eff_ret {W} : MRet (Eff W) := fun A (a : A) st => (a, st).
#[global] Instance Eff_bind {W} : MBind (Eff W) :=
  fun A B (k : A -> Eff W B) (m : Eff W A) st => let (a, st') := m st in k a st'.

Definition emit {W} (ev : Event) : Eff W unit :=
  fun st => (tt, mkState (world st) (currentErrors st) (trace st ++ [ev])).

Definition getState {W} : Eff W (State W) := fun st => (st, st).
Definition getErrors {W} : Eff W nat := fun st => (currentErrors st, st).
Definition setErrors {W} (n : nat) : Eff W unit :=
  fun st => (tt, mkState (world st) n (trace st)).
Definition getWorld {W} : Eff W W := fun st => (world st, st).
Definition setWorld {W} (w : W) : Eff W unit :=
  fun st => (tt, mkState w (currentErrors st) (trace st)).

Definition exec {W A} (m : Eff W A) (st : State W) : State W := snd (m st).

Definition logAt {W} (l : Level) (msg : string) : Eff W unit := emit (ELog l msg).

(** What is left of a task between two turns of the event loop: nothing, or
    an asynchronous call in flight together with the callback that awaits
    its answer. *)
#[warnings="-register-all"]
Inductive Proc (W : Type) : Type :=
| Finished
| AwaitRead (entry : Entry) (suffix : option string)
    (callback : Err + Buffer -> Eff W (Proc W))
| AwaitRequest (options : Options.t)
    (callback : Response -> Eff W (Proc W))
| AwaitWrite (entry : Entry) (suffix : string) (data : Buffer)
    (callback : option Err -> Eff W (Proc W)).
Arguments Finished {W}.
Arguments AwaitRead {W} _ _ _.
Arguments AwaitRequest {W} _ _.
Arguments AwaitWrite {W} _ _ _ _.

(** [storage.readEntryFile(entry, suffix, callback)],
    [request(options, callback)] and
    [storage.writeEntryFile(entry, suffix, data, callback)]: the call is
    issued and the turn ends. *)
Definition readEntryFile {W} (entry : Entry) (suffix : option string)
    (callback : Err + Buffer -> Eff W (Proc W)) : Eff W (Proc W) :=
  emit (ERead entry suffix);; mret (AwaitRead entry suffix callback).

Definition request {W} (options : Options.t)
    (callback : Response -> Eff W (Proc W)) : Eff W (Proc W) :=
  emit (ERequest options);; mret (AwaitRequest options callback).

Definition writeEntryFile {W} (entry : Entry) (suffix : string) (data : Buffer)
    (callback : option Err -> Eff W (Proc W)) : Eff W (Proc W) :=
  emit (EWrite entry suffix data);; mret (AwaitWrite entry suffix data callback).

(** [cb()], after which nothing is left of the task, and [cb(null, entry)]. *)
Definition cb {W} : Eff W (Proc W) := emit (ECallback None None);; mret Finished.
Definition cbWith {W} (entry : Entry) : Eff W unit := emit (ECallback None (Some entry)).

(** The call in flight completes: the world answers and the callback runs. *)
Definition complete {W} `{!EntryStore W} `{!HttpClient W} (p : Proc W) : Eff W (Proc W) :=
  match p with
  | Finished => mret Finished
  | AwaitRead entry suffix callback =>
      w ← getWorld;
      let (r, w') := readAnswer w entry suffix in
      setWorld w';; callback r
  | AwaitRequest options callback =>
      w ← getWorld;
      let (r, w') := requestAnswer w options in
      setWorld w';; callback r
  | AwaitWrite entry suffix data callback =>
      w ← getWorld;
      let (r, w') := writeAnswer w entry suffix data in
      setWorld w';; callback r
  end.

(** A task on its own: every call completes before anything else happens. *)
Fixpoint settle {W} `{!EntryStore W} `{!HttpClient W} (p : Proc W) (st : State W)
    {struct p} : unit * State W :=
  match p with
  | Finished => (tt, st)
  | AwaitRead entry suffix callback =>
      let (r, w') := readAnswer (world st) entry suffix in
      let (p', st') := callback r (mkState w' (currentErrors st) (trace st)) in
      settle p' st'
  | AwaitRequest options callback =>
      let (r, w') := requestAnswer (world st) options in
      let (p', st') := callback r (mkState w' (currentErrors st) (trace st)) in
      settle p' st'
  | AwaitWrite entry suffix data callback =>
      let (r, w') := writeAnswer (world st) entry suffix data in
      let (p', st') := callback r (mkState w' (currentErrors st) (trace st)) in
      settle p' st'
  end.

(** JavaScript truthiness of the result of [Array.prototype.find] over
    strings: [undefined] and the empty string are falsy. *)
Definition truthy (found : option string) : bool :=
  match found with
  | None => false
  | Some s => negb (String.eqb s EmptyString)
  end.

(** [`${x}`] for a possibly undefined string. *)
Definition render (x : option string) : string :=
  match x with
  | None => "undefined"
  | Some s => s
  end.

(** Decimal rendering of a number in a template string. *)
Definition renderZ (z : Z) : string := pretty z.

(** ** apiServerEntry *)

Record DispatcherConfig := {
  name : string;
  apiServerUrl : string;
  apiPath : string;
  imagePreviewSuffixes : list string;
  entrySuffix : string;
  concurrent : Z;
  timeout : Z
}.

Section ApiServerEntry.
Context {W : Type} `{!EntryStore W} `{!HttpClient W}.

Definition getEntryFileBySuffixes (storage : W) (entry : Entry) (suffixes : list string)
  : option string :=
  List.find (fun suffix => hasEntryFile storage entry suffix) suffixes.

Variable cfg : DispatcherConfig.

Definition test (st : State W) (entry : Entry) : bool :=
  if (ERROR_THRESHOLD <? currentErrors st)%nat then false
  else if negb (truthy (getEntryFileBySuffixes (world st) entry (imagePreviewSuffixes cfg)))
          || hasEntryFile (world st) entry (entrySuffix cfg) then false
  else if String.eqb (type entry) "image" || String.eqb (type entry) "rawImage" then true
  else false.

Definition addError : Eff W unit :=
  n ← getErrors;
  setErrors (S n);;
  n' ← getErrors;
  if (ERROR_THRESHOLD <? n')%nat
  then logAt LWarn ("Too many errors. Skip processing of " +:+ name cfg)
  else mret tt.

(** The success branch of the [writeEntryFile] callback:
    [if (currentErrors > 0) { currentErrors-- }]. *)
Definition recordSuccess : Eff W unit :=
  n ← getErrors;
  if (0 <? n)%nat then setErrors (n - 1) else mret tt.

Definition task (entry : Entry) : Eff W (Proc W) :=
  storage ← getWorld;
  let imagePreviewSuffix :=
    getEntryFileBySuffixes storage entry (imagePreviewSuffixes cfg) in
  readEntryFile entry imagePreviewSuffix (fun r =>
    match r with
    | inl err =>
        logAt LWarn ("Could not read image entry file " +:+ render imagePreviewSuffix
                     +:+ " from " +:+ toString entry +:+ ": " +:+ err
                     +:+ ". Skip " +:+ name cfg +:+ " for this entry");;
        cb
    | inr buffer =>
        let url := apiServerUrl cfg +:+ apiPath cfg in
        let options := {|
          Options.url := url;
          Options.method := "POST";
          Options.headers := [("Content-Type", "image/jpeg")];
          Options.body := buffer;
          Options.timeout := (timeout cfg * 1000)%Z
        |} in
        request options (fun res =>
          match res with
          | TransportError err =>
              addError;;
              logAt LWarn ("Could not get " +:+ name cfg +:+ " of " +:+ toString entry
                           +:+ " from URL " +:+ url +:+ ": " +:+ err);;
              cb
          | HttpResponse statusCode resBody =>
              if (statusCode <? 100)%Z || (statusCode >=? 300)%Z then
                addError;;
                logAt LError ("Could not get " +:+ name cfg +:+ " of " +:+ toString entry
                              +:+ " from URL " +:+ url +:+ ": HTTP response code is "
                              +:+ renderZ statusCode);;
                cb
              else
                writeEntryFile entry (entrySuffix cfg) resBody (fun werr =>
                  match werr with
                  | Some err =>
                      logAt LWarn ("Could write " +:+ name cfg +:+ " of " +:+ toString entry
                                   +:+ ": " +:+ err)
                  | None =>
                      recordSuccess;;
                      logAt LDebug ("Fetched " +:+ name cfg +:+ " for " +:+ toString entry)
                  end;;
                  cb)
          end)
    end).

(** One task from its start to its callback, nothing else in between. *)
Definition runTask (entry : Entry) : Eff W unit :=
  p ← task entry; settle p.

End ApiServerEntry.

(** ** Stream stages *)

(** Modelled from the spec: [through] and [parallel] of
    [@home-gallery/stream] are not part of the sources at hand.  [through]
    takes the function it applies to every chunk of the stream, which
    forwards an entry by [cb(null, entry)].  [parallel] takes a task and a
    limit: every entry is forwarded unchanged once its task has called back,
    and at most [concurrent] tasks are in flight. *)
Inductive Stage (W : Type) : Type :=
| through (transform : Entry -> Eff W unit)
| parallel (task : Entry -> Eff W (Proc W)) (concurrent : Z).
Arguments through {W} _.
Arguments parallel {W} _ _.

Definition noop {W} : Stage W := through (fun entry => cbWith entry).

(** Modelled from the spec: [conditionalTask] of [stream/task.js] is not part
    of the sources at hand.  Entries for which the predicate is false pass
    with no task invoked. *)
Definition conditionalTask {W} (test : State W -> Entry -> bool)
    (task : Entry -> Eff W (Proc W)) (entry : Entry) : Eff W (Proc W) :=
  st ← getState;
  if test st entry then task entry else cb.

(** A stage fed with one entry after the other, each task settled before the
    next entry comes. *)
Definition transform {W} `{!EntryStore W} `{!HttpClient W} (s : Stage W) (entry : Entry)
    : Eff W unit :=
  match s with
  | through fn => fn entry
  | parallel task _ => (p ← task entry; settle p);; cbWith entry
  end.

Fixpoint runStage {W} `{!EntryStore W} `{!HttpClient W} (s : Stage W) (entries : list Entry)
    : Eff W unit :=
  match entries with
  | [] => mret tt
  | entry :: rest => transform s entry;; runStage s rest
  end.

(** The entries a trace forwards downstream, the HTTP requests it issues, the
    callbacks it invokes and the lines it logs at a level. *)
Definition forwarded (tr : list Event) : list Entry :=
  omap (fun ev => match ev with ECallback _ (Some entry) => Some entry | _ => None end) tr.

Definition httpCalls (tr : list Event) : list Options.t :=
  omap (fun ev => match ev with ERequest o => Some o | _ => None end) tr.

Definition callbacks (tr : list Event) : list (option Err * option Entry) :=
  omap (fun ev => match ev with ECallback err data => Some (err, data) | _ => None end) tr.

Definition logged (l : Level) (tr : list Event) : list string :=
  omap (fun ev => match ev with
                  | ELog l' msg => if decide (l' = l) then Some msg else None
                  | _ => None
                  end) tr.

(** What a call of [apiServerEntry] creates and what it returns: the closure
    of the new dispatcher, which is the store the call was given and a
    counter of its own, and the stage whose [test], [addError] and [task] act
    on that closure.  A [State] is the state of one dispatcher; no call
    touches the state of another. *)
Record Dispatcher (W : Type) := mkDispatcher {
  closure : State W;
  returned : Stage W
}.
Arguments mkDispatcher {W} _ _.
Arguments closure {W} _.
Arguments returned {W} _.

Definition apiServerEntry {W} `{!EntryStore W} `{!HttpClient W}
    (storage : W) (cfg : DispatcherConfig) : Dispatcher W :=
  let currentErrors := 0 in
  mkDispatcher (mkState storage currentErrors [])
               (parallel (conditionalTask (test cfg) (task cfg)) (concurrent cfg)).

(** ** The dispatcher with tasks in flight

    Modelled from the spec: the scheduling of [parallel].  Callbacks run one
    at a time.  In one turn either the next entry arrives, if fewer than
    [concurrent] tasks are in flight, and its task runs up to its first
    asynchronous call; or the call of one task in flight completes and its
    callback runs.  An entry whose task has called back is forwarded. *)
Record Loop (W : Type) := mkLoop {
  machine : State W;
  inflight : list (Entry * Proc W)
}.
Arguments mkLoop {W} _ _.
Arguments machine {W} _.
Arguments inflight {W} _.

Inductive Turn :=
| Arrive (entry : Entry)
| Complete (i : nat).

Definition isFinished {W} (p : Proc W) : bool :=
  match p with
  | Finished => true
  | _ => false
  end.

Section Dispatcher.
Context {W : Type} `{!EntryStore W} `{!HttpClient W}.
Variable gatedTask : Entry -> Eff W (Proc W).
Variable limit : Z.

Definition turn (l : Loop W) (t : Turn) : option (Loop W) :=
  match t with
  | Arrive entry =>
      if (Z.of_nat (length (inflight l)) <? limit)%Z then
        let (p, st) := gatedTask entry (machine l) in
        if isFinished p
        then Some (mkLoop (exec (cbWith entry) st) (inflight l))
        else Some (mkLoop st (inflight l ++ [(entry, p)]))
      else None
  | Complete i =>
      match inflight l !! i with
      | Some (entry, p) =>
          let (p', st) := complete p (machine l) in
          if isFinished p'
          then Some (mkLoop (exec (cbWith entry) st) (delete i (inflight l)))
          else Some (mkLoop st (<[i := (entry, p')]> (inflight l)))
      | None => None
      end
  end.

Fixpoint turns (l : Loop W) (ts : list Turn) : option (Loop W) :=
  match ts with
  | [] => Some l
  | t :: rest =>
      match turn l t with
      | Some l' => turns l' rest
      | None => None
      end
  end.

End Dispatcher.

(** The turns of the dispatcher that [apiServerEntry] builds. *)
Definition dispatch {W} `{!EntryStore W} `{!HttpClient W} (cfg : DispatcherConfig)
    (l : Loop W) (ts : list Turn) : option (Loop W) :=
  turns (conditionalTask (test cfg) (task cfg)) (concurrent cfg) l ts.

(** ** Configuration *)

(** The values the [disable] setting takes: absent, a string, or an array. *)
#[warnings="-register-all"]
Inductive Value :=
| VUndefined
| VString (s : string)
| VArray (items : list Value).

Module ApiServer.
Record t := {
  url : option string;
  timeout : Z;
  concurrent : Z;
  disable : Value
}.
End ApiServer.

Record Extractor := { apiServer : option ApiServer.t }.
Record Config := { extractor : option Extractor }.
Record Common := { imagePreviewSizes : list Z }.

(** A call either returns or throws (here always a [TypeError]: a property
    read or a destructuring of [undefined]). *)
Inductive Completion (A : Type) :=
| Return (a : A)
| Throw (message : string).
Arguments Return {A} _.
Arguments Throw {A} _.

(** [config?.extractor?.apiServer] *)
Definition optApiServer (config : option Config) : option ApiServer.t :=
  c ← config; e ← extractor c; apiServer e.

Definition truthyValue (v : Value) : bool :=
  match v with
  | VUndefined => false
  | VString s => negb (String.eqb s EmptyString)
  | VArray _ => true
  end.

(** [Array.prototype.includes] with a string argument. *)
Definition includes (items : list Value) (feature : string) : bool :=
  existsb (fun v => match v with VString s => String.eqb s feature | _ => false end) items.

(** [v == feature] for a [v] that is not an array. *)
Definition looseEq (v : Value) (feature : string) : bool :=
  match v with
  | VString s => String.eqb s feature
  | _ => false
  end.

Definition isDisabled (config : option Config) (feature : string) : bool :=
  let disable :=
    match optApiServer config with
    | Some a => if truthyValue (ApiServer.disable a) then ApiServer.disable a else VArray []
    | None => VArray []
    end in
  match disable with
  | VArray items => includes items feature
  | _ => looseEq disable feature
  end.

Definition logPublicApiPrivacyHint {W} (config : option Config)
    : Eff W (Completion (Stage W)) :=
  match optApiServer config with
  | None => mret (Throw "Cannot destructure property 'url' of undefined")
  | Some a =>
      let url := ApiServer.url a in
      let timeout := ApiServer.timeout a in
      let concurrent := ApiServer.concurrent a in
      (if match url with Some u => String.prefix PUBLIC_API_SERVER u | None => false end
       then logAt LWarn ("You are using the public api server " +:+ render url
                         +:+ ". Please read its documentation at " +:+ DOCUMENATION_URL
                         +:+ " for privacy concerns")
       else logAt LDebug ("Use api server " +:+ render url));;
      logAt LTrace ("Use api server with " +:+ renderZ concurrent
                    +:+ " concurrent connections and timeout of " +:+ renderZ timeout +:+ "s");;
      mret (Return noop)
  end.

Definition apiServerPreviewSizeFilter (size : Z) : bool := (size <=? 800)%Z.

Section FeatureAdapters.
Context {W : Type} `{!EntryStore W} `{!HttpClient W}.

(** [sizeToImagePreviewSuffix] of [./image-preview.js] is not part of the
    sources at hand; the adapters are stated for any such function. *)
Variable sizeToImagePreviewSuffix : Z -> string.

(** The part the three adapters share: the early exit on a disabled
    feature, then [config.extractor.apiServer] and [apiServerEntry] on the
    store at hand, of which the adapter returns the stage. *)
Definition adapter (feature disabledMessage name apiPath entrySuffix : string)
    (common : Common) (config : option Config) : Eff W (Completion (Stage W)) :=
  if isDisabled config feature then
    logAt LInfo disabledMessage;;
    mret (Return noop)
  else
    match config with
    | None => mret (Throw "Cannot read properties of undefined (reading 'extractor')")
    | Some c =>
        match extractor c with
        | None => mret (Throw "Cannot read properties of undefined (reading 'apiServer')")
        | Some e =>
            match apiServer e with
            | None => mret (Throw "Cannot read properties of undefined (reading 'url')")
            | Some a =>
                storage ← getWorld;
                mret (Return (returned (apiServerEntry storage {|
                  name := name;
                  apiServerUrl := render (ApiServer.url a);
                  apiPath := apiPath;
                  imagePreviewSuffixes :=
                    map sizeToImagePreviewSuffix
                        (filter (fun size => apiServerPreviewSizeFilter size = true)
                                (imagePreviewSizes common));
                  entrySuffix := entrySuffix;
                  concurrent := ApiServer.concurrent a;
                  timeout := ApiServer.timeout a
                |})))
            end
        end
    end.

Definition similarEmbeddings : Common -> option Config -> Eff W (Completion (Stage W)) :=
  adapter "similarDetection" "Disable similar detection"
          "similarity embeddings" "/embeddings" "similarity-embeddings.json".

Definition objectDetection : Common -> option Config -> Eff W (Completion (Stage W)) :=
  adapter "objectDetection" "Disable object detection"
          "object detection" "/objects" "objects.json".

Definition faceDetection : Common -> option Config -> Eff W (Completion (Stage W)) :=
  adapter "faceDetection" "Disable face detection"
          "face detection" "/faces" "faces.json".

End FeatureAdapters.

(** ** Runs of the error budget

    Whatever the number of tasks in flight, the counter goes through a
    sequence of failure recordings ([addError]) and success recordings. *)



Fixpoint times {W} (n : nat) (m : Eff W unit) : Eff W unit :=
  match n with
  | O => mret tt
  | S n' => m;; times n' m
  end.

(** What the collaborators answer to one run of [task]. *)
Inductive Outcome :=
| ReadFailed (err : Err)
| TransportFailed (err : Err)
| BadStatus (statusCode : Z)
| WriteFailed (err : Err)
| Written.

Section Runs.
Context {W : Type} `{!EntryStore W} `{!HttpClient W}.
Variable cfg : DispatcherConfig.



Definition outcome (st : State W) (entry : Entry) : Outcome :=
  let w := world st in
  let suffix := getEntryFileBySuffixes w entry (imagePreviewSuffixes cfg) in
  match readAnswer w entry suffix with
  | (inl err, _) => ReadFailed err
  | (inr buffer, w1) =>
      let options := {|
        Options.url := apiServerUrl cfg +:+ apiPath cfg;
        Options.method := "POST";
        Options.headers := [("Content-Type", "image/jpeg")];
        Options.body := buffer;
        Options.timeout := (timeout cfg * 1000)%Z
      |} in
      match requestAnswer w1 options with
      | (TransportError err, _) => TransportFailed err
      | (HttpResponse statusCode resBody, w2) =>
          if decide (100 <= statusCode < 300)%Z then
            match writeAnswer w2 entry (entrySuffix cfg) resBody with
            | (Some err, _) => WriteFailed err
            | (None, _) => Written
            end
          else BadStatus statusCode
      end
  end.

Definition remoteFailed (o : Outcome) : Prop :=
  match o with
  | TransportFailed _ | BadStatus _ => True
  | _ => False
  end.

Definition localFailed (o : Outcome) : Prop :=
  match o with
  | ReadFailed _ | WriteFailed _ => True
  | _ => False
  end.

End Runs.

(** ** The file index ([packages/index/src/write.js]) *)

(** Modelled from the spec: [byDirDescFileAsc] of [./utils.js] is not part of
    the sources at hand.  An index entry is compared by its directory, in
    descending order, and then by its file, in ascending order; strings are
    compared character by character. *)
Record IndexEntry := { dir : string; file : string }.

Definition byDirDescFileAsc (a b : IndexEntry) : Z :=
  match String_as_OT.compare (dir a) (dir b) with
  | Lt => 1
  | Gt => -1
  | Eq =>
      match String_as_OT.compare (file a) (file b) with
      | Lt => -1
      | Gt => 1
      | Eq => 0
      end
  end.

(** [Array.prototype.sort] with a comparison function: a stable sort, so for
    a consistent comparison function its result is the one of inserting the
    elements one by one, each before the first element it does not follow. *)
Fixpoint insertBy {A} (compareFn : A -> A -> Z) (x : A) (l : list A) : list A :=
  match l with
  | [] => [x]
  | y :: l' => if (compareFn x y <=? 0)%Z then x :: l else y :: insertBy compareFn x l'
  end.

Definition array_sort {A} (compareFn : A -> A -> Z) (l : list A) : list A :=
  foldr (insertBy compareFn) [] l.

(** Arrays are objects: a variable holds a reference into the heap. *)
Definition Ref := nat.

Module Index.
Record t := {
  type : string;
  created : string;
  base : string;
  data : Ref
}.
End Index.

Record WriteOptions := { dryRun : bool }.

(** What [JSON.stringify] sees of an index: the array behind [data]. *)
Record Document := {
  doc_type : string;
  doc_created : string;
  doc_base : string;
  doc_data : list IndexEntry
}.

(** Modelled from the spec: [writeJsonGzip] of [@home-gallery/common] is not
    part of the sources at hand.  It serializes and compresses a value to the
    file of the given name, and reports an error or success. *)
Class FileSystem (F : Type) := {
  writeJsonGzip : F -> string -> Document -> option Err * F
}.

Record Machine (F : Type) := mkMachine {
  heap : gmap Ref (list IndexEntry);
  fs : F
}.
Arguments mkMachine {F} _ _.
Arguments heap {F} _.
Arguments fs {F} _.

(** The settlement of the promise an [async] function returns. *)
Inductive Promise (A : Type) :=
| Resolved (a : A)
| Rejected (reason : Err).
Arguments Resolved {A} _.
Arguments Rejected {A} _.

Definition stringify (h : gmap Ref (list IndexEntry)) (index : Index.t) : Document :=
  {| doc_type := Index.type index;
     doc_created := Index.created index;
     doc_base := Index.base index;
     doc_data := default [] (h !! Index.data index) |}.

Section WriteIndex.
Context {F : Type} `{!FileSystem F}.

(** [path.resolve] under the working directory of the process, and the
    reading of the clock as [new Date().toISOString()]. *)
Variable resolve : string -> string.
Variable now : string.

Definition writeIndex (directory filename : string) (entries : Ref)
    (options : WriteOptions) (m : Machine F) : Promise Index.t * Machine F :=
  match heap m !! entries with
  | None => (Rejected "entries.sort is not a function", m)
  | Some elements =>
      let sorted := <[entries := array_sort byDirDescFileAsc elements]> (heap m) in
      let index := {|
        Index.type := "home-gallery/fileindex@1.0";
        Index.created := now;
        Index.base := resolve directory;
        Index.data := entries
      |} in
      if dryRun options then (Resolved index, mkMachine sorted (fs m))
      else
        let (err, fs') := writeJsonGzip (fs m) filename (stringify sorted index) in
        match err with
        | Some reason => (Rejected reason, mkMachine sorted fs')
        | None => (Resolved index, mkMachine sorted fs')
        end
  end.

End WriteIndex.

(** ** Concrete collaborators

    An in-memory entry store with a scripted API server, and an in-memory
    file system, on which the definitions above run. *)

Record MemWorld := mkMemWorld {
  files : gmap (string * string) Buffer;
  writable : bool;
  responses : list Response
}.

#[global] Instance MemWorld_store : EntryStore MemWorld := {|
  hasEntryFile w entry suffix := bool_decide (is_Some (files w !! (toString entry, suffix)));
  readAnswer w entry suffix :=
    (match suffix with
     | None => inl "ENOENT"
     | Some s =>
         match files w !! (toString entry, s) with
         | Some buffer => inr buffer
         | None => inl "ENOENT"
         end
     end, w);
  writeAnswer w entry suffix data :=
    if writable w
    then (None, mkMemWorld (<[(toString entry, suffix) := data]> (files w)) true (responses w))
    else (Some "EACCES", w)
|}.

#[global] Instance MemWorld_http : HttpClient MemWorld := {|
  requestAnswer w options :=
    match responses w with
    | [] => (TransportError "ETIMEDOUT", w)
    | r :: rest => (r, mkMemWorld (files w) (writable w) rest)
    end
|}.

Record MemFs := mkMemFs {
  written : gmap string Document;
  diskFull : bool
}.

#[global] Instance MemFs_fs : FileSystem MemFs := {|
  writeJsonGzip f filename doc :=
    if diskFull f then (Some "ENOSPC", f)
    else (None, mkMemFs (<[filename := doc]> (written f)) false)
|}.

(** ** Concrete inputs *)

Definition photo : Entry := {| type := "image"; toString := "a1b2c3d:2024/photo.jpg" |}.

Definition objectsConfig (suffixes : list string) : DispatcherConfig := {|
  name := "object detection";
  apiServerUrl := "http://localhost:3000";
  apiPath := "/objects";
  imagePreviewSuffixes := suffixes;
  entrySuffix := "objects.json";
  concurrent := 2;
  timeout := 30
|}.

(** A store in which [photo] has the given files and nothing else. *)
Definition storeOf (suffixes : list string) (answers : list Response) : MemWorld :=
  mkMemWorld (list_to_map (map (fun suffix => ((toString photo, suffix), [])) suffixes))
             true answers.

Definition previews : list string := ["image-preview-800.jpg"; "image-preview-320.jpg"].

(** The warning of [addError]. *)
Definition tooManyErrors (cfg : DispatcherConfig) : string :=
  "Too many errors. Skip processing of " +:+ name cfg.

(** A store in which [photo] is eligible, with the counter at [n]. *)
Definition eligibleAt (n : nat) : State MemWorld := mkState (storeOf previews []) n [].

(** The feature's name appears in the [disable] setting: as the string
    itself, or as a member of the array. *)
Definition disabledIn (config : option Config) (feature : string) : Prop :=
  exists a, optApiServer config = Some a
    /\ (ApiServer.disable a = VString feature
        \/ exists items, ApiServer.disable a = VArray items /\ In (VString feature) items).

Definition configWith (disable : Value) : option Config :=
  Some {| extractor := Some {| apiServer := Some {|
    ApiServer.url := Some "https://api.home-gallery.org";
    ApiServer.timeout := 30;
    ApiServer.concurrent := 5;
    ApiServer.disable := disable
  |} |} |}.

Definition previewSuffix (size : Z) : string := "image-preview-" +:+ pretty size +:+ ".jpg".

(** The order of the index, as the specification words it: [a] may come
    before [b] when its directory is the greater one, or the directories are
    the same and its file is not the greater one. *)
Definition dirDescFileAsc (a b : IndexEntry) : Prop :=
  String_as_OT.lt (dir b) (dir a)
  \/ (dir a = dir b /\ (String_as_OT.lt (file a) (file b) \/ file a = file b)).

Definition unsortedEntries : list IndexEntry :=
  [ {| dir := "2023"; file := "b.jpg" |};
    {| dir := "2024"; file := "z.jpg" |};
    {| dir := "2023"; file := "a.jpg" |};
    {| dir := "2024"; file := "c.jpg" |} ].

Definition machineWith (full : bool) : Machine MemFs :=
  mkMachine {[ 7 := unsortedEntries ]} (mkMemFs ∅ full).

Definition resolveIn (cwd directory : string) : string :=
  if String.prefix "/" directory then directory else cwd +:+ "/" +:+ directory.

Definition sortedEntries : list IndexEntry :=
  [ {| dir := "2024"; file := "c.jpg" |};
    {| dir := "2024"; file := "z.jpg" |};
    {| dir := "2023"; file := "a.jpg" |};
    {| dir := "2023"; file := "b.jpg" |} ].

Definition picturesIndex : Index.t := {|
  Index.type := "home-gallery/fileindex@1.0";
  Index.created := "2024-05-01T10:00:00.000Z";
  Index.base := "/home/user/Pictures";
  Index.data := 7
|}.

Definition writePictures (dry full : bool) : Promise Index.t * Machine MemFs :=
  writeIndex (resolveIn "/home/user") "2024-05-01T10:00:00.000Z"
    "Pictures" "/home/user/.config/pictures.idx" 7 {| dryRun := dry |} (machineWith full).

(** Eight photos, each with both previews and no result yet, and a server
    that gives the listed answers in the order the requests complete. *)
Definition album : list Entry :=
  map (fun n : nat => {| type := "image"; toString := "photo-" +:+ pretty n |}) (seq 1 8).

Definition albumStore (answers : list Response) : MemWorld :=
  mkMemWorld
    (list_to_map (flat_map (fun entry => map (fun suffix => ((toString entry, suffix), []))
                                             previews) album))
    true answers.

Definition nth_photo (n : nat) : Entry :=
  {| type := "image"; toString := "photo-" +:+ pretty n |}.

Definition serverError : Response := HttpResponse 500 [].
Definition ok : Response := HttpResponse 200 [].

(** A task whose read and whose request complete with no other turn in
    between. *)
Definition alone (entry : Entry) : list Turn := [Arrive entry; Complete 0; Complete 0].

(** Five tasks one after the other, then two that are in flight together. *)
Definition fiveThenTwo : list Turn :=
  flat_map alone (map nth_photo (seq 1 5)) ++ [Arrive (nth_photo 6); Arrive (nth_photo 7)].

(** The first call in flight completes, [n] times over. *)
Definition completions (n : nat) : list Turn := repeat (Complete 0) n.

Definition start (answers : list Response) : Loop MemWorld :=
  mkLoop (mkState (albumStore answers) 0 []) [].

(** What a run of the dispatcher leaves: the counter, the warnings logged,
    and whether the predicate holds of the eighth photo. *)
Definition summary (cfg : DispatcherConfig) (l : Loop MemWorld)
    : nat * list string * bool :=
  (currentErrors (machine l), logged LWarn (trace (machine l)),
   test cfg (machine l) (nth_photo 8)).


(** ** More of the trace *)

(** The reads and the writes a trace issues to the store. *)
Definition reads (tr : list Event) : list (Entry * option string) :=
  omap (fun ev => match ev with ERead e suffix => Some (e, suffix) | _ => None end) tr.

Definition writes (tr : list Event) : list (Entry * string * Buffer) :=
  omap (fun ev => match ev with EWrite e suffix data => Some (e, suffix, data) | _ => None end) tr.

(** The request [task] builds for the bytes it has read. *)
Definition postOf (cfg : DispatcherConfig) (buffer : Buffer) : Options.t := {|
  Options.url := apiServerUrl cfg +:+ apiPath cfg;
  Options.method := "POST";
  Options.headers := [("Content-Type", "image/jpeg")];
  Options.body := buffer;
  Options.timeout := (timeout cfg * 1000)%Z
|}.

Definition configAt (url : option string) : option Config :=
  Some {| extractor := Some {| apiServer := Some {|
    ApiServer.url := url;
    ApiServer.timeout := 30;
    ApiServer.concurrent := 5;
    ApiServer.disable := VUndefined
  |} |} |}.

(** ** Tasks in flight and the counter *)

(** What is left of a task raises the counter at most once, by one, in the
    turn in which it ends, and ends within [fuel] turns. *)
Fixpoint raisesAtMostOnce {W} `{!EntryStore W} `{!HttpClient W} (fuel : nat) (p : Proc W)
    : Prop :=
  match fuel with
  | O => p = Finished
  | S fuel' =>
      forall st,
        (fst (complete p st) = Finished
         /\ currentErrors (snd (complete p st)) <= S (currentErrors st))
        \/ (currentErrors (snd (complete p st)) <= currentErrors st
            /\ raisesAtMostOnce fuel' (fst (complete p st)))
  end.

(** The counter and the tasks in flight stay within the threshold and the
    limit taken together. *)
Definition withinBudget {W} `{!EntryStore W} `{!HttpClient W} (limit : Z) (l : Loop W) : Prop :=
  (Z.of_nat (currentErrors (machine l)) + Z.of_nat (length (inflight l))
   <= Z.of_nat ERROR_THRESHOLD + limit)%Z
  /\ Forall (fun ep => raisesAtMostOnce 3 (snd ep)) (inflight l).


(** * Properties *)

(** ** The state monad *)

Lemma exec_bind {W A B} (m : Eff W A) (k : A -> Eff W B) (st : State W) :
  exec (m ≫= k) st = exec (k (fst (m st))) (snd (m st)).
Proof. unfold exec, mbind, Eff_bind. destruct (m st); reflexivity. Qed.

Lemma exec_ret {W A} (a : A) (st : State W) : exec (mret a) st = st.
Proof. reflexivity. Qed.

Lemma state_eta {W} (st : State W) :
  mkState (world st) (currentErrors st) (trace st) = st.
Proof. destruct st; reflexivity. Qed.

(** ** Traces *)

Lemma logged_app (l : Level) (tr1 tr2 : list Event) :
  logged l (tr1 ++ tr2) = logged l tr1 ++ logged l tr2.
Proof. unfold logged. apply omap_app. Qed.

Lemma callbacks_app (tr1 tr2 : list Event) :
  callbacks (tr1 ++ tr2) = callbacks tr1 ++ callbacks tr2.
Proof. unfold callbacks. apply omap_app. Qed.

Lemma forwarded_app (tr1 tr2 : list Event) :
  forwarded (tr1 ++ tr2) = forwarded tr1 ++ forwarded tr2.
Proof. unfold forwarded. apply omap_app. Qed.

Lemma httpCalls_app (tr1 tr2 : list Event) :
  httpCalls (tr1 ++ tr2) = httpCalls tr1 ++ httpCalls tr2.
Proof. unfold httpCalls. apply omap_app. Qed.

Lemma reads_app (tr1 tr2 : list Event) : reads (tr1 ++ tr2) = reads tr1 ++ reads tr2.
Proof. unfold reads. apply omap_app. Qed.

Lemma writes_app (tr1 tr2 : list Event) : writes (tr1 ++ tr2) = writes tr1 ++ writes tr2.
Proof. unfold writes. apply omap_app. Qed.

(** ** The task predicate *)

Section TestProperties.
Context {W : Type} `{!EntryStore W} `{!HttpClient W}.
Variable cfg : DispatcherConfig.

Lemma truthy_Some (found : option string) :
  truthy found = true <-> exists suffix, found = Some suffix /\ suffix <> EmptyString.
Proof.
  destruct found as [s|]; simpl.
  - destruct (String.eqb_spec s EmptyString); simpl; split.
    + discriminate.
    + intros (s' & [= <-] & Hne). contradiction.
    + eauto.
    + reflexivity.
  - split; [discriminate | intros (s & [=] & _)].
Qed.

Lemma supported_type (entry : Entry) :
  String.eqb (type entry) "image" || String.eqb (type entry) "rawImage" = true
  <-> type entry = "image" \/ type entry = "rawImage".
Proof.
  rewrite orb_true_iff.
  destruct (String.eqb_spec (type entry) "image"),
           (String.eqb_spec (type entry) "rawImage"); intuition discriminate.
Qed.

Lemma test_tripped (st : State W) (entry : Entry) :
  ERROR_THRESHOLD < currentErrors st -> test cfg st entry = false.
Proof.
  intros Htrip. unfold test.
  apply Nat.ltb_lt in Htrip. rewrite Htrip. reflexivity.
Qed.

Lemma getEntryFileBySuffixes_Some (w : W) (entry : Entry) suffixes suffix :
  getEntryFileBySuffixes w entry suffixes = Some suffix ->
  In suffix suffixes /\ hasEntryFile w entry suffix = true.
Proof. apply find_some. Qed.

Lemma getEntryFileBySuffixes_None (w : W) (entry : Entry) suffixes :
  getEntryFileBySuffixes w entry suffixes = None <->
  forall suffix, In suffix suffixes -> hasEntryFile w entry suffix = false.
Proof.
  split.
  - intros Hnone suffix Hin. exact (find_none _ _ Hnone suffix Hin).
  - intros Hall. unfold getEntryFileBySuffixes.
    induction suffixes as [|s rest IH]; simpl; [reflexivity|].
    rewrite (Hall s) by (left; reflexivity).
    apply IH. intros s' Hin. apply Hall. right; exact Hin.
Qed.

Lemma test_true_iff (st : State W) (entry : Entry) :
  test cfg st entry = true <->
    currentErrors st <= ERROR_THRESHOLD
    /\ (exists suffix,
          getEntryFileBySuffixes (world st) entry (imagePreviewSuffixes cfg) = Some suffix
          /\ suffix <> EmptyString)
    /\ hasEntryFile (world st) entry (entrySuffix cfg) = false
    /\ (type entry = "image" \/ type entry = "rawImage").
Proof.
  unfold test.
  destruct (Nat.ltb_spec ERROR_THRESHOLD (currentErrors st)) as [Htrip|Hok].
  { split; [discriminate | intros (Hle & _); lia]. }
  rewrite <- truthy_Some, <- supported_type.
  destruct (truthy _); simpl.
  - destruct (hasEntryFile _ _ _); simpl.
    + split; [discriminate | intros (_ & _ & [=] & _)].
    + destruct (_ || _); intuition discriminate.
  - split; [discriminate | intros (_ & [=] & _)].
Qed.

Lemma found_nonempty (w : W) (entry : Entry) (suffixes : list string) :
  Forall (fun suffix => suffix <> EmptyString) suffixes ->
  (exists suffix, getEntryFileBySuffixes w entry suffixes = Some suffix /\ suffix <> EmptyString)
  <-> exists suffix, In suffix suffixes /\ hasEntryFile w entry suffix = true.
Proof.
  intros Hnonempty. split.
  - intros (suffix & Hfound & _). exists suffix.
    apply getEntryFileBySuffixes_Some. exact Hfound.
  - intros (suffix & Hin & Hhas).
    destruct (getEntryFileBySuffixes w entry suffixes) as [first|] eqn:Hfound.
    + exists first. split; [reflexivity|].
      apply getEntryFileBySuffixes_Some in Hfound as [Hfirst _].
      rewrite List.Forall_forall in Hnonempty. apply Hnonempty. exact Hfirst.
    + rewrite getEntryFileBySuffixes_None in Hfound.
      rewrite (Hfound suffix Hin) in Hhas. discriminate.
Qed.

(** The predicate in full.  When no configured input suffix is the empty
    string, as in every configuration the adapters build, [test] is true
    exactly when the counter is at most 5, some configured input suffix
    exists for the entry, the output suffix does not exist, and the type of
    the entry is 'image' or 'rawImage' (the raw-image classifier).  In
    general the condition on the input is that the first configured input
    suffix that exists is not the empty string.  A tripped budget rejects
    every entry. *)
Theorem test_eligible_iff (st : State W) (entry : Entry) :
  (test cfg st entry = true <->
     currentErrors st <= ERROR_THRESHOLD
     /\ (exists suffix,
           getEntryFileBySuffixes (world st) entry (imagePreviewSuffixes cfg) = Some suffix
           /\ suffix <> EmptyString)
     /\ hasEntryFile (world st) entry (entrySuffix cfg) = false
     /\ (type entry = "image" \/ type entry = "rawImage"))
  /\ (Forall (fun suffix => suffix <> EmptyString) (imagePreviewSuffixes cfg) ->
      (test cfg st entry = true <->
         currentErrors st <= ERROR_THRESHOLD
         /\ (exists suffix,
               In suffix (imagePreviewSuffixes cfg)
               /\ hasEntryFile (world st) entry suffix = true)
         /\ hasEntryFile (world st) entry (entrySuffix cfg) = false
         /\ (type entry = "image" \/ type entry = "rawImage")))
  /\ (ERROR_THRESHOLD < currentErrors st -> forall other, test cfg st other = false).
Proof.
  split; [apply test_true_iff|]. split.
  - intros Hnonempty. rewrite test_true_iff, (found_nonempty _ _ _ Hnonempty). reflexivity.
  - intros Htrip other. apply test_tripped. exact Htrip.
Qed.

End TestProperties.


(** ** The error budget *)

Section BudgetProperties.
Context {W : Type} `{!EntryStore W} `{!HttpClient W}.
Variable cfg : DispatcherConfig.

Lemma addError_exec (st : State W) :
  exec (addError cfg) st =
    mkState (world st) (S (currentErrors st))
      (trace st ++ if (ERROR_THRESHOLD <? S (currentErrors st))%nat
                   then [ELog LWarn (tooManyErrors cfg)] else []).
Proof.
  unfold exec, addError, mbind, Eff_bind, getErrors, setErrors, logAt, emit, mret, Eff_ret.
  cbn -[Nat.ltb]. destruct (_ <? _)%nat; cbn; [reflexivity|].
  rewrite app_nil_r. reflexivity.
Qed.

Lemma recordSuccess_exec (st : State W) :
  exec recordSuccess st = mkState (world st) (currentErrors st - 1) (trace st).
Proof.
  unfold exec, recordSuccess, mbind, Eff_bind, getErrors, setErrors, mret, Eff_ret.
  cbn. destruct st as [w n tr]; cbn. destruct n; cbn; [reflexivity|].
  rewrite Nat.sub_0_r. reflexivity.
Qed.

Lemma times_S {A : Type} (n : nat) (m : Eff A unit) (st : State A) :
  exec (times (S n) m) st = exec (times n m) (exec m st).
Proof. cbn [times]. rewrite exec_bind. reflexivity. Qed.

Lemma times_addError (n : nat) (st : State W) :
  world (exec (times n (addError cfg)) st) = world st
  /\ currentErrors (exec (times n (addError cfg)) st) = currentErrors st + n
  /\ logged LWarn (trace (exec (times n (addError cfg)) st)) =
       logged LWarn (trace st)
       ++ repeat (tooManyErrors cfg)
            ((currentErrors st + n - ERROR_THRESHOLD) - (currentErrors st - ERROR_THRESHOLD)).
Proof.
  revert st. induction n as [|n IH]; intros st.
  - cbn [times]. rewrite exec_ret, Nat.add_0_r, Nat.sub_diag, app_nil_r. auto.
  - rewrite times_S. destruct (IH (exec (addError cfg) st)) as (Hw & Hc & Hl).
    rewrite Hw, Hc, Hl, addError_exec. cbn [world currentErrors trace].
    split; [reflexivity|]. split; [lia|].
    rewrite logged_app, <- app_assoc. f_equal.
    unfold ERROR_THRESHOLD.
    destruct (Nat.ltb_spec 5 (S (currentErrors st))) as [Habove|Hbelow].
    + change (logged LWarn [ELog LWarn (tooManyErrors cfg)]) with [tooManyErrors cfg].
      cbn [app].
      replace (currentErrors st + S n - 5 - (currentErrors st - 5))
        with (S (S (currentErrors st) + n - 5 - (S (currentErrors st) - 5))) by lia.
      reflexivity.
    + change (logged LWarn []) with (@nil string). cbn [app]. f_equal. lia.
Qed.

Lemma times_recordSuccess (n : nat) (st : State W) :
  exec (times n recordSuccess) st = mkState (world st) (currentErrors st - n) (trace st).
Proof.
  revert st. induction n as [|n IH]; intros st.
  - cbn [times]. rewrite exec_ret, Nat.sub_0_r. symmetry. apply state_eta.
  - rewrite times_S, IH, recordSuccess_exec. cbn [world currentErrors trace].
    f_equal. lia.
Qed.

(** C2, as the code has it: [addError] increments the counter and logs the
    warning on every call that leaves the counter above the threshold, at
    the crossing and on each later failure alike; [n] failures in a row log
    one warning for each of them that ends above 5. *)
Theorem addError_warns_above_threshold (st : State W) :
  exec (addError cfg) st =
    mkState (world st) (S (currentErrors st))
      (trace st ++ if (ERROR_THRESHOLD <? S (currentErrors st))%nat
                   then [ELog LWarn (tooManyErrors cfg)] else [])
  /\ forall n,
       logged LWarn (trace (exec (times n (addError cfg)) st)) =
         logged LWarn (trace st)
         ++ repeat (tooManyErrors cfg)
              ((currentErrors st + n - ERROR_THRESHOLD) - (currentErrors st - ERROR_THRESHOLD)).
Proof.
  split; [apply addError_exec | intros n; apply times_addError].
Qed.


(** C5: from a counter at 0, six failure recordings followed by six success
    recordings leave the counter at 0, and the predicate is true again for
    an entry that has an input file, no output file and a supported type. *)
Theorem six_failures_six_successes_recover (st : State W) (entry : Entry) :
  currentErrors st = 0 ->
  truthy (getEntryFileBySuffixes (world st) entry (imagePreviewSuffixes cfg)) = true ->
  hasEntryFile (world st) entry (entrySuffix cfg) = false ->
  type entry = "image" \/ type entry = "rawImage" ->
  currentErrors (exec (times 6 (addError cfg);; times 6 recordSuccess) st) = 0
  /\ test cfg (exec (times 6 (addError cfg)) st) entry = false
  /\ test cfg (exec (times 6 (addError cfg);; times 6 recordSuccess) st) entry = true.
Proof.
  intros Hzero Hinput Houtput Htype.
  destruct (times_addError 6 st) as (Hw & Hc & _).
  assert (Hfinal : exec (times 6 (addError cfg);; times 6 recordSuccess) st
                   = mkState (world st) 0 (trace (exec (times 6 (addError cfg)) st))).
  { rewrite exec_bind. fold (exec (times 6 (addError cfg)) st).
    rewrite times_recordSuccess, Hw, Hc, Hzero. reflexivity. }
  rewrite Hfinal. cbn [currentErrors]. split; [reflexivity|]. split.
  - apply test_tripped. rewrite Hc, Hzero. unfold ERROR_THRESHOLD. lia.
  - apply test_true_iff. cbn [world currentErrors].
    split; [unfold ERROR_THRESHOLD; lia|].
    split; [apply truthy_Some; exact Hinput|]. split; assumption.
Qed.

End BudgetProperties.

(** C2, the claim as written fails: with the counter already at 6, a further
    failure logs the warning again.  Such a failure happens with two tasks
    in flight: after five failed tasks two entries pass the predicate at a
    counter of 5, and when both requests fail the warning is logged for the
    sixth failure and again for the seventh. *)
Lemma addError_rewarns_counterexample :
  ERROR_THRESHOLD < currentErrors (eligibleAt 6)
  /\ logged LWarn (trace (exec (addError (objectsConfig previews)) (eligibleAt 6)))
     = [tooManyErrors (objectsConfig previews)]
  /\ summary (objectsConfig previews)
       <$> dispatch (objectsConfig previews) (start (repeat serverError 7))
             (fiveThenTwo ++ completions 4)
     = Some (7, [tooManyErrors (objectsConfig previews);
                 tooManyErrors (objectsConfig previews)], false).
Proof.
  split; [unfold ERROR_THRESHOLD; cbn; lia|].
  split; vm_compute; reflexivity.
Qed.

(** C5 over a store in which the photo is eligible. *)
Lemma six_failures_six_successes_recover_witness :
  currentErrors
    (exec (times 6 (addError (objectsConfig previews));; times 6 recordSuccess) (eligibleAt 0)) = 0
  /\ test (objectsConfig previews)
       (exec (times 6 (addError (objectsConfig previews))) (eligibleAt 0)) photo = false
  /\ test (objectsConfig previews)
       (exec (times 6 (addError (objectsConfig previews));; times 6 recordSuccess) (eligibleAt 0))
       photo = true.
Proof.
  apply (six_failures_six_successes_recover (objectsConfig previews) (eligibleAt 0) photo).
  - reflexivity.
  - vm_compute. reflexivity.
  - vm_compute. reflexivity.
  - left. reflexivity.
Defined.

(** ** The enrichment task *)

Section TaskProperties.
Context {W : Type} `{!EntryStore W} `{!HttpClient W}.
Variable cfg : DispatcherConfig.

Ltac run_task :=
  unfold exec, runTask, task, readEntryFile, request, writeEntryFile, addError,
    recordSuccess, logAt, cb, emit, getWorld, setWorld, getErrors, setErrors,
    mbind, Eff_bind, mret, Eff_ret;
  cbn -[Nat.ltb Z.ltb Z.geb callbacks last].

Lemma status_range (statusCode : Z) :
  (statusCode <? 100)%Z || (statusCode >=? 300)%Z = false <-> (100 <= statusCode < 300)%Z.
Proof.
  rewrite orb_false_iff, Z.ltb_ge, Z.geb_leb, Z.leb_gt. lia.
Qed.

Lemma task_currentErrors (st : State W) (entry : Entry) :
  currentErrors (exec (runTask cfg entry) st) =
    match outcome cfg st entry with
    | TransportFailed _ | BadStatus _ => S (currentErrors st)
    | Written => currentErrors st - 1
    | ReadFailed _ | WriteFailed _ => currentErrors st
    end.
Proof.
  unfold outcome. run_task.
  destruct (readAnswer _ _ _) as [[err|buffer] w1]; cbn -[Nat.ltb Z.ltb Z.geb];
    [reflexivity|].
  destruct (requestAnswer _ _) as [[err|statusCode resBody] w2]; cbn -[Nat.ltb Z.ltb Z.geb].
  { destruct (_ <? _)%nat; cbn; reflexivity. }
  destruct (decide (100 <= statusCode < 300)%Z) as [Hin|Hout].
  - apply status_range in Hin. rewrite Hin. cbn -[Nat.ltb].
    destruct (writeAnswer _ _ _ _) as [[err|] w3]; cbn -[Nat.ltb]; [reflexivity|].
    destruct (currentErrors st) as [|n]; cbn; [reflexivity | lia].
  - destruct (_ || _) eqn:Hcode.
    + cbn -[Nat.ltb]. destruct (_ <? _)%nat; cbn; reflexivity.
    + apply status_range in Hcode. contradiction.
Qed.

(** C4: the task raises the counter by one exactly when the request fails
    at transport level or answers with a status outside [100, 300); it
    lowers it by one, not below 0, exactly when the body has been written
    under the output suffix; a failed read or a failed write leaves it as it
    is. *)
Theorem task_error_budget (st : State W) (entry : Entry) :
  (currentErrors (exec (runTask cfg entry) st) = S (currentErrors st)
     <-> remoteFailed (outcome cfg st entry))
  /\ (outcome cfg st entry = Written ->
      currentErrors (exec (runTask cfg entry) st) = currentErrors st - 1)
  /\ (currentErrors (exec (runTask cfg entry) st) < currentErrors st ->
      outcome cfg st entry = Written)
  /\ (localFailed (outcome cfg st entry) ->
      currentErrors (exec (runTask cfg entry) st) = currentErrors st).
Proof.
  rewrite task_currentErrors.
  destruct (outcome cfg st entry); cbn [remoteFailed localFailed];
    repeat split; try tauto; try discriminate; try lia.
Qed.

(** C6: whatever the collaborators answer, the task ends by invoking its
    callback, once and without an error. *)
Theorem task_always_completes (st : State W) (entry : Entry) :
  callbacks (trace (exec (runTask cfg entry) st)) = callbacks (trace st) ++ [(None, None)]
  /\ last (trace (exec (runTask cfg entry) st)) = Some (ECallback None None).
Proof.
  assert (Hdone : forall tr tr',
    callbacks tr' = callbacks tr ->
    callbacks (tr' ++ [ECallback None None]) = callbacks tr ++ [(None, None)]
    /\ last (tr' ++ [ECallback None None]) = Some (ECallback None None)).
  { intros tr tr' Hsame. rewrite last_snoc, callbacks_app, Hsame. auto. }
  assert (Hquiet : forall tr ev,
    callbacks [ev] = [] -> callbacks (tr ++ [ev]) = callbacks tr).
  { intros tr ev Hev. rewrite callbacks_app, Hev, app_nil_r. reflexivity. }
  run_task.
  destruct (readAnswer _ _ _) as [[err|buffer] w1]; run_task.
  { apply Hdone. rewrite !Hquiet; reflexivity. }
  destruct (requestAnswer _ _) as [[err|statusCode resBody] w2]; run_task.
  { destruct (_ <? _)%nat; run_task; apply Hdone; rewrite !Hquiet; reflexivity. }
  destruct (_ || _); run_task.
  { destruct (_ <? _)%nat; run_task; apply Hdone; rewrite !Hquiet; reflexivity. }
  destruct (writeAnswer _ _ _ _) as [[err|] w3]; run_task.
  - apply Hdone. rewrite !Hquiet; reflexivity.
  - destruct (_ <? _)%nat; run_task; apply Hdone; rewrite !Hquiet; reflexivity.
Qed.

Lemma settle_complete (p : Proc W) (st : State W) :
  settle p st = (complete p ≫= settle) st.
Proof.
  destruct p as [|entry suffix callback|options callback|entry suffix data callback];
    unfold complete, mbind, Eff_bind, getWorld, setWorld, mret, Eff_ret; cbn.
  - reflexivity.
  - destruct (readAnswer _ _ _) as [r w']. reflexivity.
  - destruct (requestAnswer _ _) as [r w']. reflexivity.
  - destruct (writeAnswer _ _ _ _) as [r w']. reflexivity.
Qed.

(** The task turn by turn, whatever happens between its turns: the read
    callback never touches the counter; the request callback raises it by
    one on a transport error or a status outside [100, 300) and calls back,
    and otherwise issues the write; the write callback lowers the counter by
    one, not below 0, on success only, and calls back. *)
Lemma task_turn_by_turn (st0 : State W) (entry : Entry) :
  exists suffix onRead,
    task cfg entry st0
    = (AwaitRead entry suffix onRead,
       mkState (world st0) (currentErrors st0) (trace st0 ++ [ERead entry suffix]))
    /\ forall r st1,
         currentErrors (snd (onRead r st1)) = currentErrors st1
         /\ match r with
            | inl err =>
                fst (onRead r st1) = Finished
                /\ callbacks (trace (snd (onRead r st1)))
                   = callbacks (trace st1) ++ [(None, None)]
            | inr buffer =>
                exists options onResponse,
                  fst (onRead r st1) = AwaitRequest options onResponse
                  /\ callbacks (trace (snd (onRead r st1))) = callbacks (trace st1)
                  /\ forall res st2,
                       match res with
                       | HttpResponse statusCode resBody =>
                           if decide (100 <= statusCode < 300)%Z then
                             exists onWritten,
                               onResponse res st2
                               = (AwaitWrite entry (entrySuffix cfg) resBody onWritten,
                                  mkState (world st2) (currentErrors st2)
                                    (trace st2 ++ [EWrite entry (entrySuffix cfg) resBody]))
                               /\ forall werr st3,
                                    fst (onWritten werr st3) = Finished
                                    /\ currentErrors (snd (onWritten werr st3))
                                       = match werr with
                                         | None => currentErrors st3 - 1
                                         | Some _ => currentErrors st3
                                         end
                                    /\ callbacks (trace (snd (onWritten werr st3)))
                                       = callbacks (trace st3) ++ [(None, None)]
                           else
                             fst (onResponse res st2) = Finished
                             /\ currentErrors (snd (onResponse res st2)) = S (currentErrors st2)
                             /\ callbacks (trace (snd (onResponse res st2)))
                                = callbacks (trace st2) ++ [(None, None)]
                       | TransportError err =>
                           fst (onResponse res st2) = Finished
                           /\ currentErrors (snd (onResponse res st2)) = S (currentErrors st2)
                           /\ callbacks (trace (snd (onResponse res st2)))
                              = callbacks (trace st2) ++ [(None, None)]
                       end
            end.
Proof.
  assert (Hquiet : forall tr ev,
    callbacks [ev] = [] -> callbacks (tr ++ [ev]) = callbacks tr).
  { intros tr ev Hev. rewrite callbacks_app, Hev, app_nil_r. reflexivity. }
  assert (Hcalled : forall tr,
    callbacks (tr ++ [ECallback None None]) = callbacks tr ++ [(None, None)]).
  { intros tr. rewrite callbacks_app. reflexivity. }
  run_task. do 2 eexists. split; [reflexivity|].
  intros [err|buffer] st1; run_task.
  { rewrite Hcalled, Hquiet by reflexivity. auto. }
  split; [reflexivity|]. do 2 eexists. split; [reflexivity|].
  split; [apply Hquiet; reflexivity|].
  intros [err|statusCode resBody] st2; run_task.
  { destruct (_ <? _)%nat; run_task; rewrite Hcalled, !Hquiet by reflexivity; auto. }
  destruct (decide (100 <= statusCode < 300)%Z) as [Hin|Hout].
  - apply status_range in Hin. rewrite Hin. run_task.
    eexists. split; [reflexivity|].
    intros [err|] st3; run_task.
    + rewrite Hcalled, Hquiet by reflexivity. auto.
    + destruct (Nat.ltb_spec 0 (currentErrors st3)) as [Hpos|Hzero]; run_task;
        rewrite Hcalled, Hquiet by reflexivity; repeat split; lia.
  - destruct (_ || _) eqn:Hcode; [|apply status_range in Hcode; contradiction].
    run_task. destruct (_ <? _)%nat; run_task;
      rewrite Hcalled, !Hquiet by reflexivity; auto.
Qed.

End TaskProperties.

(** ** The dispatcher *)

Section DispatcherProperties.
Context {W : Type} `{!EntryStore W} `{!HttpClient W}.
Variable gatedTask : Entry -> Eff W (Proc W).
Variable limit : Z.

(** At most [limit] tasks are in flight. *)
Lemma turn_inflight_bound (l l' : Loop W) (t : Turn) :
  (Z.of_nat (length (inflight l)) <= limit)%Z ->
  turn gatedTask limit l t = Some l' ->
  (Z.of_nat (length (inflight l')) <= limit)%Z.
Proof.
  intros Hbound. unfold turn. destruct t as [entry|i].
  - destruct (Z.ltb_spec (Z.of_nat (length (inflight l))) limit) as [Hroom|]; [|discriminate].
    destruct (gatedTask entry (machine l)) as [p st].
    destruct (isFinished p); intros [= <-]; cbn [inflight]; [exact Hbound|].
    rewrite length_app. cbn [length]. lia.
  - destruct (inflight l !! i) as [[entry p]|] eqn:Hi; [|discriminate].
    destruct (complete p (machine l)) as [p' st].
    destruct (isFinished p'); intros [= <-]; cbn [inflight].
    + assert (Hsome : is_Some (inflight l !! i)) by (rewrite Hi; eauto).
      pose proof (length_delete (inflight l) i Hsome) as Hlen. lia.
    + rewrite length_insert. exact Hbound.
Qed.

Lemma turns_inflight_bound (ts : list Turn) (l l' : Loop W) :
  (Z.of_nat (length (inflight l)) <= limit)%Z ->
  turns gatedTask limit l ts = Some l' ->
  (Z.of_nat (length (inflight l')) <= limit)%Z.
Proof.
  revert l. induction ts as [|t rest IH]; intros l Hbound; cbn [turns].
  - intros [= <-]. exact Hbound.
  - destruct (turn gatedTask limit l t) as [l1|] eqn:Hturn; [|discriminate].
    apply IH. exact (turn_inflight_bound l l1 t Hbound Hturn).
Qed.

End DispatcherProperties.

(** ** A tripped budget *)

Section TrippedProperties.
Context {W : Type} `{!EntryStore W} `{!HttpClient W}.
Variable cfg : DispatcherConfig.




End TrippedProperties.



(** ** Feature adapters *)

Section AdapterProperties.
Context {W : Type} `{!EntryStore W} `{!HttpClient W}.

Lemma includes_In (items : list Value) (feature : string) :
  includes items feature = true <-> In (VString feature) items.
Proof.
  unfold includes. rewrite existsb_exists. split.
  - intros (v & Hin & Hv). destruct v as [|s|]; try discriminate.
    apply String.eqb_eq in Hv. subst s. exact Hin.
  - intros Hin. exists (VString feature). split; [exact Hin | apply String.eqb_refl].
Qed.

Lemma isDisabled_iff (config : option Config) (feature : string) :
  feature <> EmptyString ->
  isDisabled config feature = true <-> disabledIn config feature.
Proof.
  intros Hname. unfold isDisabled, disabledIn.
  destruct (optApiServer config) as [a|].
  - destruct (ApiServer.disable a) as [|s|items] eqn:Hd; cbn.
    + split; [discriminate|]. intros (a' & [= <-] & [Hs | (items & Hi & _)]); congruence.
    + destruct (String.eqb_spec s EmptyString) as [->|Hne]; cbn.
      * split; [discriminate|].
        intros (a' & [= <-] & [Hs | (items & Hi & _)]); congruence.
      * rewrite String.eqb_eq. split.
        -- intros ->. exists a. split; [reflexivity|]. left. exact Hd.
        -- intros (a' & [= <-] & [Hs | (items & Hi & _)]); congruence.
    + rewrite includes_In. split.
      * intros Hin. exists a. split; [reflexivity|]. right. exists items. split; [exact Hd | exact Hin].
      * intros (a' & [= <-] & [Hs | (items' & Hi & Hin)]); [congruence|].
        rewrite Hd in Hi. injection Hi as ->. exact Hin.
  - cbn. split; [discriminate | intros (a & [=] & _)].
Qed.

Lemma adapter_disabled (sizeToImagePreviewSuffix : Z -> string)
    (feature disabledMessage name apiPath entrySuffix : string)
    (common : Common) (config : option Config) (st : State W) :
  isDisabled config feature = true ->
  adapter sizeToImagePreviewSuffix feature disabledMessage name apiPath entrySuffix
    common config st
  = (Return noop,
     mkState (world st) (currentErrors st) (trace st ++ [ELog LInfo disabledMessage])).
Proof. intros Hd. unfold adapter. rewrite Hd. reflexivity. Qed.

Lemma forwarded_pushes (entries : list Entry) :
  forwarded (map (fun entry => ECallback None (Some entry)) entries) = entries.
Proof. induction entries as [|e es IH]; cbn; [reflexivity | f_equal; exact IH]. Qed.

Lemma httpCalls_pushes (entries : list Entry) :
  httpCalls (map (fun entry => ECallback None (Some entry)) entries) = [].
Proof. induction entries as [|e es IH]; cbn; [reflexivity | exact IH]. Qed.

Lemma runStage_noop (entries : list Entry) (st : State W) :
  exec (runStage noop entries) st =
    mkState (world st) (currentErrors st)
      (trace st ++ map (fun entry => ECallback None (Some entry)) entries).
Proof.
  revert st. induction entries as [|entry rest IH]; intros st.
  - cbn [runStage map]. rewrite exec_ret, app_nil_r. symmetry. apply state_eta.
  - cbn [runStage map]. rewrite exec_bind.
    change (snd (transform noop entry st))
      with (mkState (world st) (currentErrors st) (trace st ++ [ECallback None (Some entry)])).
    rewrite IH. cbn [world currentErrors trace]. rewrite <- app_assoc. reflexivity.
Qed.

(** C7: when the name of a feature appears in the [disable] setting, as the
    string itself or as a member of the array, the adapter of that feature
    logs one line and returns the pass-through stage; that stage forwards
    every entry as it is, in order, issues no HTTP request and leaves the
    store and the counter alone. *)
Theorem disabled_feature_is_noop (sizeToImagePreviewSuffix : Z -> string)
    (feature : string)
    (featureAdapter : Common -> option Config -> Eff W (Completion (Stage W)))
    (common : Common) (config : option Config) :
  In (feature, featureAdapter)
     [("similarDetection", similarEmbeddings sizeToImagePreviewSuffix);
      ("objectDetection", objectDetection sizeToImagePreviewSuffix);
      ("faceDetection", faceDetection sizeToImagePreviewSuffix)] ->
  disabledIn config feature ->
  forall st : State W,
    (exists message,
       featureAdapter common config st
       = (Return noop,
          mkState (world st) (currentErrors st) (trace st ++ [ELog LInfo message])))
    /\ forall entries (st' : State W),
         forwarded (trace (exec (runStage noop entries) st')) = forwarded (trace st') ++ entries
         /\ httpCalls (trace (exec (runStage noop entries) st')) = httpCalls (trace st')
         /\ world (exec (runStage noop entries) st') = world st'
         /\ currentErrors (exec (runStage noop entries) st') = currentErrors st'.
Proof.
  intros Hwhich Hdisabled st. split.
  - destruct Hwhich as [[= <- <-] | [[= <- <-] | [[= <- <-] | []]]];
      eexists; apply adapter_disabled; apply isDisabled_iff; (discriminate || assumption).
  - intros entries st'. rewrite runStage_noop. cbn [world currentErrors trace].
    rewrite forwarded_app, httpCalls_app.
    rewrite forwarded_pushes, httpCalls_pushes, app_nil_r. auto.
Qed.

Lemma logPublicApiPrivacyHint_Some (config : option Config) (a : ApiServer.t) (st : State W) :
  optApiServer config = Some a ->
  exists level message level' message',
    logPublicApiPrivacyHint config st
    = (Return noop,
       mkState (world st) (currentErrors st)
         (trace st ++ [ELog level message; ELog level' message'])).
Proof.
  intros Ha. unfold logPublicApiPrivacyHint. rewrite Ha. cbv zeta.
  destruct (match ApiServer.url a with Some u => _ | None => _ end);
    do 4 eexists; unfold mbind, Eff_bind, logAt, emit, mret, Eff_ret; cbn;
    rewrite <- app_assoc; reflexivity.
Qed.

Lemma logPublicApiPrivacyHint_None (config : option Config) (st : State W) :
  optApiServer config = None ->
  exists message, logPublicApiPrivacyHint config st = (Throw message, st).
Proof.
  intros Ha. unfold logPublicApiPrivacyHint. rewrite Ha. eexists. reflexivity.
Qed.

(** C10: [logPublicApiPrivacyHint] returns the pass-through stage, after
    logging two lines and nothing else, when the configuration has an
    [extractor.apiServer] block; without that block it throws and returns no
    stage at all. *)
Theorem logPublicApiPrivacyHint_needs_apiServer (config : option Config) (st : State W) :
  ((exists stage st', logPublicApiPrivacyHint config st = (Return stage, st'))
     <-> is_Some (optApiServer config))
  /\ (forall stage st',
        logPublicApiPrivacyHint config st = (Return stage, st') ->
        stage = noop
        /\ world st' = world st /\ currentErrors st' = currentErrors st
        /\ exists level message level' message',
             trace st' = trace st ++ [ELog level message; ELog level' message'])
  /\ (optApiServer config = None ->
      exists message, logPublicApiPrivacyHint config st = (Throw message, st)).
Proof.
  destruct (optApiServer config) as [a|] eqn:Ha.
  - destruct (logPublicApiPrivacyHint_Some config a st Ha)
      as (level & message & level' & message' & Hrun).
    rewrite Hrun. split; [|split].
    + split; [intros _; eauto | intros _; eauto].
    + intros stage st' [= <- <-]. cbn [world currentErrors trace]. repeat split; eauto.
    + discriminate.
  - destruct (logPublicApiPrivacyHint_None config st Ha) as (message & Hrun).
    rewrite Hrun. split; [|split].
    + split; [intros (stage & st' & [=]) | intros [a [=]]].
    + intros stage st' [=].
    + intros _. eauto.
Qed.

End AdapterProperties.

(** ** Sorting *)

Section SortProperties.
Context {A : Type} (compareFn : A -> A -> Z).

Let before (a b : A) : Prop := (compareFn a b <= 0)%Z.

Hypothesis compare_total : forall a b, before a b \/ before b a.
Hypothesis compare_trans : forall a b c, before a b -> before b c -> before a c.

Lemma insertBy_Permutation (x : A) (l : list A) :
  Permutation (x :: l) (insertBy compareFn x l).
Proof.
  induction l as [|y l IH]; cbn [insertBy]; [reflexivity|].
  destruct (compareFn x y <=? 0)%Z; [reflexivity|].
  rewrite perm_swap. apply perm_skip. exact IH.
Qed.

Lemma array_sort_Permutation (l : list A) : Permutation l (array_sort compareFn l).
Proof.
  induction l as [|x l IH]; cbn [array_sort foldr]; [reflexivity|].
  rewrite <- insertBy_Permutation. apply perm_skip. exact IH.
Qed.

Lemma insertBy_StronglySorted (x : A) (l : list A) :
  StronglySorted before l -> StronglySorted before (insertBy compareFn x l).
Proof.
  induction 1 as [|y l Hsorted IH Hall]; cbn [insertBy].
  - repeat constructor.
  - destruct (Z.leb_spec (compareFn x y) 0) as [Hle|Hgt].
    + constructor; [constructor; assumption|].
      constructor; [exact Hle|].
      eapply Forall_impl; [exact Hall|]. intros z Hyz. exact (compare_trans x y z Hle Hyz).
    + constructor; [exact IH|].
      rewrite <- (insertBy_Permutation x l). constructor; [|exact Hall].
      destruct (compare_total y x) as [Hyx|Hxy]; [exact Hyx|].
      unfold before in Hxy. lia.
Qed.

Lemma array_sort_StronglySorted (l : list A) :
  StronglySorted before (array_sort compareFn l).
Proof.
  induction l as [|x l IH]; cbn [array_sort foldr]; [constructor|].
  apply insertBy_StronglySorted. exact IH.
Qed.

End SortProperties.

Lemma StronglySorted_weaken {A : Type} (R R' : A -> A -> Prop) (l : list A) :
  (forall a b, R a b -> R' a b) -> StronglySorted R l -> StronglySorted R' l.
Proof.
  intros Himpl. induction 1 as [|x l Hsorted IH Hall]; constructor; [exact IH|].
  eapply Forall_impl; [exact Hall|]. intros y. apply Himpl.
Qed.

Lemma string_lt_irrefl (s : string) : ~ String_as_OT.lt s s.
Proof. apply (StrictOrder_Irreflexive (R := String_as_OT.lt)). Qed.

Lemma string_lt_trans (s1 s2 s3 : string) :
  String_as_OT.lt s1 s2 -> String_as_OT.lt s2 s3 -> String_as_OT.lt s1 s3.
Proof. apply (StrictOrder_Transitive (R := String_as_OT.lt)). Qed.

Lemma string_lt_asym (s1 s2 : string) :
  String_as_OT.lt s1 s2 -> ~ String_as_OT.lt s2 s1.
Proof. intros H12 H21. exact (string_lt_irrefl s1 (string_lt_trans _ _ _ H12 H21)). Qed.

Lemma byDirDescFileAsc_le (a b : IndexEntry) :
  (byDirDescFileAsc a b <= 0)%Z <-> dirDescFileAsc a b.
Proof.
  unfold byDirDescFileAsc, dirDescFileAsc.
  destruct (String_as_OT.compare_spec (dir a) (dir b)) as [Hd|Hd|Hd].
  - unfold String_as_OT.eq in Hd.
    destruct (String_as_OT.compare_spec (file a) (file b)) as [Hf|Hf|Hf].
    + unfold String_as_OT.eq in Hf. split; [auto | lia].
    + split; [auto | lia].
    + split; [lia|]. intros [Hlt | (_ & [Hlt | Heq])].
      * rewrite Hd in Hlt. destruct (string_lt_irrefl _ Hlt).
      * destruct (string_lt_asym _ _ Hf Hlt).
      * rewrite Heq in Hf. destruct (string_lt_irrefl _ Hf).
  - split; [lia|]. intros [Hlt | (Heq & _)].
    + destruct (string_lt_asym _ _ Hd Hlt).
    + rewrite Heq in Hd. destruct (string_lt_irrefl _ Hd).
  - split; [auto | lia].
Qed.

Lemma dirDescFileAsc_total (a b : IndexEntry) : dirDescFileAsc a b \/ dirDescFileAsc b a.
Proof.
  unfold dirDescFileAsc.
  destruct (String_as_OT.compare_spec (dir a) (dir b)) as [Hd|Hd|Hd]; auto.
  unfold String_as_OT.eq in Hd.
  destruct (String_as_OT.compare_spec (file a) (file b)) as [Hf|Hf|Hf]; auto.
Qed.

Lemma dirDescFileAsc_trans (a b c : IndexEntry) :
  dirDescFileAsc a b -> dirDescFileAsc b c -> dirDescFileAsc a c.
Proof.
  unfold dirDescFileAsc.
  intros [Hab | (Hab & Hfab)] [Hbc | (Hbc & Hfbc)].
  - left. exact (string_lt_trans _ _ _ Hbc Hab).
  - left. rewrite <- Hbc. exact Hab.
  - left. rewrite Hab. exact Hbc.
  - right. split; [congruence|].
    destruct Hfab as [Hfab | Hfab], Hfbc as [Hfbc | Hfbc].
    + left. exact (string_lt_trans _ _ _ Hfab Hfbc).
    + left. rewrite <- Hfbc. exact Hfab.
    + left. rewrite Hfab. exact Hfbc.
    + right. congruence.
Qed.

Lemma sorted_byDirDescFileAsc (elements : list IndexEntry) :
  StronglySorted dirDescFileAsc (array_sort byDirDescFileAsc elements)
  /\ Permutation elements (array_sort byDirDescFileAsc elements).
Proof.
  split; [|apply array_sort_Permutation].
  eapply StronglySorted_weaken;
    [|apply (array_sort_StronglySorted byDirDescFileAsc)].
  - intros a b. apply byDirDescFileAsc_le.
  - intros a b. rewrite !byDirDescFileAsc_le. apply dirDescFileAsc_total.
  - intros a b c. rewrite !byDirDescFileAsc_le. apply dirDescFileAsc_trans.
Qed.

(** ** writeIndex *)

Section WriteIndexProperties.
Context {F : Type} `{!FileSystem F}.
Variable resolve : string -> string.
Variable now : string.

Lemma writeIndex_heap (directory filename : string) (entries : Ref)
    (options : WriteOptions) (m : Machine F) (elements : list IndexEntry) :
  heap m !! entries = Some elements ->
  heap (snd (writeIndex resolve now directory filename entries options m))
  = <[entries := array_sort byDirDescFileAsc elements]> (heap m).
Proof.
  intros Hentries. unfold writeIndex. rewrite Hentries.
  destruct (dryRun options); [reflexivity|].
  destruct (writeJsonGzip _ _ _) as [[reason|] fs']; reflexivity.
Qed.

Lemma writeIndex_Resolved (directory filename : string) (entries : Ref)
    (options : WriteOptions) (m : Machine F) (index : Index.t) :
  fst (writeIndex resolve now directory filename entries options m) = Resolved index ->
  index = {| Index.type := "home-gallery/fileindex@1.0";
             Index.created := now;
             Index.base := resolve directory;
             Index.data := entries |}.
Proof.
  unfold writeIndex. destruct (heap m !! entries); [|discriminate].
  destruct (dryRun options); [intros [= <-]; reflexivity|].
  destruct (writeJsonGzip _ _ _) as [[reason|] fs']; [discriminate|].
  intros [= <-]. reflexivity.
Qed.

(** C8: [writeIndex] builds the structure with the type
    'home-gallery/fileindex@1.0', the resolved directory as base and, as
    data, the entries ordered by directory descending, then file ascending.
    On a dry run it returns the structure and leaves the file system as it
    is; otherwise it hands the serialized structure to [writeJsonGzip] for
    the target file and, when that reports no error, returns the same
    structure. *)
Theorem writeIndex_structure (directory filename : string) (entries : Ref)
    (options : WriteOptions) (m : Machine F) (elements : list IndexEntry) :
  heap m !! entries = Some elements ->
  let index := {| Index.type := "home-gallery/fileindex@1.0";
                  Index.created := now;
                  Index.base := resolve directory;
                  Index.data := entries |} in
  let sorted := array_sort byDirDescFileAsc elements in
  let document := {| doc_type := "home-gallery/fileindex@1.0";
                     doc_created := now;
                     doc_base := resolve directory;
                     doc_data := sorted |} in
  StronglySorted dirDescFileAsc sorted
  /\ Permutation elements sorted
  /\ heap (snd (writeIndex resolve now directory filename entries options m))
       !! Index.data index = Some sorted
  /\ (dryRun options = true ->
      writeIndex resolve now directory filename entries options m
      = (Resolved index, mkMachine (<[entries := sorted]> (heap m)) (fs m)))
  /\ (dryRun options = false ->
      writeIndex resolve now directory filename entries options m
      = (match fst (writeJsonGzip (fs m) filename document) with
         | None => Resolved index
         | Some reason => Rejected reason
         end,
         mkMachine (<[entries := sorted]> (heap m))
                   (snd (writeJsonGzip (fs m) filename document)))).
Proof.
  intros Hentries index sorted document.
  destruct (sorted_byDirDescFileAsc elements) as [Hsorted Hperm].
  split; [exact Hsorted|]. split; [exact Hperm|]. split.
  - rewrite (writeIndex_heap _ _ _ _ _ _ Hentries). apply lookup_insert_eq.
  - unfold writeIndex. rewrite Hentries. split.
    + intros ->. reflexivity.
    + intros ->.
      replace (stringify (<[entries := array_sort byDirDescFileAsc elements]> (heap m))
                 {| Index.type := "home-gallery/fileindex@1.0";
                    Index.created := now;
                    Index.base := resolve directory;
                    Index.data := entries |})
        with document
        by (unfold stringify, document; cbn; rewrite lookup_insert_eq; reflexivity).
      destruct (writeJsonGzip (fs m) filename document) as [[reason|] fs']; reflexivity.
Qed.

(** C9: [writeIndex] sorts the array it is given: after the call, dry run or
    not, the array behind the argument holds the same entries ordered by
    directory descending, then file ascending, no other array has changed,
    and the [data] of a returned index is the reference that was passed. *)
Theorem writeIndex_sorts_in_place (directory filename : string) (entries : Ref)
    (options : WriteOptions) (m : Machine F) (elements : list IndexEntry) :
  heap m !! entries = Some elements ->
  heap (snd (writeIndex resolve now directory filename entries options m)) !! entries
    = Some (array_sort byDirDescFileAsc elements)
  /\ StronglySorted dirDescFileAsc (array_sort byDirDescFileAsc elements)
  /\ Permutation elements (array_sort byDirDescFileAsc elements)
  /\ (forall other, other <> entries ->
        heap (snd (writeIndex resolve now directory filename entries options m)) !! other
        = heap m !! other)
  /\ (forall index,
        fst (writeIndex resolve now directory filename entries options m) = Resolved index ->
        Index.data index = entries).
Proof.
  intros Hentries.
  destruct (sorted_byDirDescFileAsc elements) as [Hsorted Hperm].
  rewrite (writeIndex_heap _ _ _ _ _ _ Hentries).
  split; [apply lookup_insert_eq|]. split; [exact Hsorted|]. split; [exact Hperm|]. split.
  - intros other Hother. apply lookup_insert_ne. congruence.
  - intros index Hindex. apply writeIndex_Resolved in Hindex. subst index. reflexivity.
Qed.

End WriteIndexProperties.

(** ** The theorems at concrete inputs *)

(** C7 for object detection, disabled as a member of the array. *)
Lemma disabled_feature_is_noop_witness :
  (exists message,
     objectDetection previewSuffix {| imagePreviewSizes := [1920; 800; 320]%Z |}
       (configWith (VArray [VString "faceDetection"; VString "objectDetection"]))
       (eligibleAt 0)
     = (Return noop, mkState (storeOf previews []) 0 [ELog LInfo message]))
  /\ forwarded (trace (exec (runStage noop [photo; photo]) (eligibleAt 0))) = [photo; photo]
  /\ httpCalls (trace (exec (runStage noop [photo; photo]) (eligibleAt 0))) = [].
Proof.
  destruct (disabled_feature_is_noop previewSuffix "objectDetection"
              (objectDetection previewSuffix) {| imagePreviewSizes := [1920; 800; 320]%Z |}
              (configWith (VArray [VString "faceDetection"; VString "objectDetection"])))
    with (st := eligibleAt 0) as [Hadapter Hstage].
  - right. left. reflexivity.
  - eexists. split; [reflexivity|]. right. eexists. split; [reflexivity|].
    right. left. reflexivity.
  - split; [exact Hadapter|].
    destruct (Hstage [photo; photo] (eligibleAt 0)) as (Hforwarded & Hhttp & _).
    split; [exact Hforwarded | exact Hhttp].
Defined.

(** C8 on four entries of two directories, as a dry run and with a file
    system that accepts the write. *)
Lemma writeIndex_structure_witness :
  writePictures true false
  = (Resolved picturesIndex, mkMachine (<[7 := sortedEntries]> (heap (machineWith false)))
                                       (mkMemFs ∅ false))
  /\ fst (writePictures false false) = Resolved picturesIndex
  /\ written (fs (snd (writePictures false false))) !! "/home/user/.config/pictures.idx"
     = Some {| doc_type := "home-gallery/fileindex@1.0";
               doc_created := "2024-05-01T10:00:00.000Z";
               doc_base := "/home/user/Pictures";
               doc_data := sortedEntries |}.
Proof.
  split.
  - destruct (writeIndex_structure (resolveIn "/home/user") "2024-05-01T10:00:00.000Z"
                "Pictures" "/home/user/.config/pictures.idx" 7 {| dryRun := true |}
                (machineWith false) unsortedEntries)
      as (_ & _ & _ & Hdry & _); [vm_compute; reflexivity|].
    unfold writePictures. rewrite Hdry by reflexivity. reflexivity.
  - destruct (writeIndex_structure (resolveIn "/home/user") "2024-05-01T10:00:00.000Z"
                "Pictures" "/home/user/.config/pictures.idx" 7 {| dryRun := false |}
                (machineWith false) unsortedEntries)
      as (_ & _ & _ & _ & Hwet); [vm_compute; reflexivity|].
    unfold writePictures. rewrite Hwet by reflexivity.
    split; vm_compute; reflexivity.
Defined.

(** C9 on the same entries, as a dry run and with a file system that
    refuses the write. *)
Lemma writeIndex_sorts_in_place_witness :
  heap (snd (writePictures true false)) !! 7 = Some sortedEntries
  /\ heap (snd (writePictures false true)) !! 7 = Some sortedEntries
  /\ fst (writePictures false true) = Rejected "ENOSPC".
Proof.
  split; [|split].
  - destruct (writeIndex_sorts_in_place (resolveIn "/home/user") "2024-05-01T10:00:00.000Z"
                "Pictures" "/home/user/.config/pictures.idx" 7 {| dryRun := true |}
                (machineWith false) unsortedEntries) as (Hheap & _);
      [vm_compute; reflexivity|].
    exact Hheap.
  - destruct (writeIndex_sorts_in_place (resolveIn "/home/user") "2024-05-01T10:00:00.000Z"
                "Pictures" "/home/user/.config/pictures.idx" 7 {| dryRun := false |}
                (machineWith true) unsortedEntries) as (Hheap & _);
      [vm_compute; reflexivity|].
    exact Hheap.
  - vm_compute. reflexivity.
Defined.

(** ** The definitions at concrete inputs *)

Example array_sort_unsortedEntries :
  array_sort byDirDescFileAsc unsortedEntries = sortedEntries.
Proof. vm_compute. reflexivity. Qed.

Example isDisabled_examples :
  isDisabled (configWith (VString "faceDetection")) "faceDetection" = true
  /\ isDisabled (configWith (VString "faceDetection")) "objectDetection" = false
  /\ isDisabled (configWith (VArray [VString "a"; VString "objectDetection"])) "objectDetection"
     = true
  /\ isDisabled (configWith VUndefined) "objectDetection" = false
  /\ isDisabled None "objectDetection" = false.
Proof. repeat split. Qed.

(** One photo through the stage of an enabled adapter, with a server that
    answers 200: a read, a request, a write, the callback of the task, and
    the entry forwarded. *)
Example runStage_one_photo :
  (fun st => (currentErrors st, callbacks (trace st), length (httpCalls (trace st)),
              hasEntryFile (world st) (nth_photo 1) "objects.json"))
    (exec (runStage (returned (apiServerEntry (albumStore [ok]) (objectsConfig previews)))
                    [nth_photo 1])
          (closure (apiServerEntry (albumStore [ok]) (objectsConfig previews))))
  = (0, [(None, None); (None, Some (nth_photo 1))], 1, true).
Proof. vm_compute. reflexivity. Qed.

(** The same photo through the turns of the dispatcher. *)
Example dispatch_one_photo :
  machine <$> dispatch (objectsConfig previews) (start [ok]) (alone (nth_photo 1) ++ completions 1)
  = Some (exec (runStage (parallel (conditionalTask (test (objectsConfig previews))
                                                    (task (objectsConfig previews))) 2)
                         [nth_photo 1])
               (mkState (albumStore [ok]) 0 [])).
Proof. vm_compute. reflexivity. Qed.

(** The five paths of the task, from a counter at 3: a photo without a
    preview (the read fails), no answer from the server, the statuses 99,
    300 and 500, a store that refuses the write, and the statuses 100 and 299
    with a store that accepts it. *)
Example runTask_paths :
  map (fun w => (outcome (objectsConfig previews) (mkState w 3 []) (nth_photo 1),
                 currentErrors (exec (runTask (objectsConfig previews) (nth_photo 1))
                                     (mkState w 3 []))))
      [ mkMemWorld ∅ true [ok];
        albumStore [];
        albumStore [HttpResponse 99 []];
        albumStore [HttpResponse 300 []];
        albumStore [serverError];
        mkMemWorld (files (albumStore [])) false [ok];
        albumStore [HttpResponse 100 []];
        albumStore [HttpResponse 299 []] ]
  = [ (ReadFailed "ENOENT", 3);
      (TransportFailed "ETIMEDOUT", 4);
      (BadStatus 99, 4);
      (BadStatus 300, 4);
      (BadStatus 500, 4);
      (WriteFailed "EACCES", 3);
      (Written, 2);
      (Written, 2) ].
Proof. vm_compute. reflexivity. Qed.

(** * Further properties of the code *)

(** ** Arithmetic of the error budget *)

Section BudgetArithmetic.
Context {W : Type} `{!EntryStore W} `{!HttpClient W}.
Variable cfg : DispatcherConfig.

Lemma failures_successes_state (n m : nat) (st : State W) :
  world (exec (times n (addError cfg);; times m recordSuccess) st) = world st
  /\ currentErrors (exec (times n (addError cfg);; times m recordSuccess) st)
     = currentErrors st + n - m.
Proof.
  rewrite exec_bind. fold (exec (times n (addError cfg)) st).
  rewrite times_recordSuccess. cbn [world currentErrors].
  destruct (times_addError cfg n st) as (Hw & Hc & _). rewrite Hw, Hc. auto.
Qed.

(** X1: [n] failure recordings followed by [m] success recordings leave the
    counter at its value plus [n] minus [m], and at 0 when that is negative;
    a failure followed by a success restores the counter, while a success
    followed by a failure restores it only when it was not 0. *)
Theorem failures_then_successes (n m : nat) (st : State W) :
  currentErrors (exec (times n (addError cfg);; times m recordSuccess) st)
    = currentErrors st + n - m
  /\ currentErrors (exec (addError cfg;; recordSuccess) st) = currentErrors st
  /\ currentErrors (exec (recordSuccess;; addError cfg) st) = Nat.max 1 (currentErrors st).
Proof.
  split; [apply failures_successes_state|]. split.
  - rewrite exec_bind. fold (exec (addError cfg) st).
    rewrite recordSuccess_exec, addError_exec. cbn [currentErrors]. lia.
  - rewrite exec_bind. fold (exec (recordSuccess (W := W)) st).
    rewrite addError_exec, recordSuccess_exec. cbn [currentErrors]. lia.
Qed.

(** X2: for an entry with an input file, no output file and a supported
    type, the predicate holds after [n] failures and [m] successes exactly
    when the counter plus [n] is at most 5 plus [m]: a tripped budget needs
    as many successes as it is above the threshold. *)
Theorem recovery_needs_the_excess (n m : nat) (st : State W) (entry : Entry) :
  truthy (getEntryFileBySuffixes (world st) entry (imagePreviewSuffixes cfg)) = true ->
  hasEntryFile (world st) entry (entrySuffix cfg) = false ->
  type entry = "image" \/ type entry = "rawImage" ->
  test cfg (exec (times n (addError cfg);; times m recordSuccess) st) entry = true
  <-> currentErrors st + n <= ERROR_THRESHOLD + m.
Proof.
  intros Hinput Houtput Htype.
  destruct (failures_successes_state n m st) as (Hw & Hc).
  rewrite test_true_iff, Hw, Hc, <- truthy_Some. unfold ERROR_THRESHOLD. split.
  - intros (Hle & _). lia.
  - intros Hle. split; [lia|]. auto.
Qed.

End BudgetArithmetic.

(** X2 with the counter at 4: after three failures, one success is not
    enough and two are. *)
Lemma recovery_needs_the_excess_witness :
  test (objectsConfig previews)
    (exec (times 3 (addError (objectsConfig previews));; times 1 recordSuccess) (eligibleAt 4))
    photo = false
  /\ test (objectsConfig previews)
       (exec (times 3 (addError (objectsConfig previews));; times 2 recordSuccess) (eligibleAt 4))
       photo = true.
Proof.
  split.
  - apply not_true_is_false.
    rewrite (recovery_needs_the_excess (objectsConfig previews) 3 1 (eligibleAt 4) photo);
      [unfold ERROR_THRESHOLD; cbn; lia | vm_compute; reflexivity | vm_compute; reflexivity
       | left; reflexivity].
  - apply (recovery_needs_the_excess (objectsConfig previews) 3 2 (eligibleAt 4) photo);
      [vm_compute; reflexivity | vm_compute; reflexivity | left; reflexivity
       | unfold ERROR_THRESHOLD; cbn; lia].
Defined.

(** ** What a task asks of its collaborators *)

Section TaskInputOutput.
Context {W : Type} `{!EntryStore W} `{!HttpClient W}.
Variable cfg : DispatcherConfig.

Ltac run_task :=
  unfold exec, runTask, task, readEntryFile, request, writeEntryFile, addError,
    recordSuccess, logAt, cb, emit, getWorld, setWorld, getErrors, setErrors,
    mbind, Eff_bind, mret, Eff_ret, postOf;
  cbn -[Nat.ltb Z.ltb Z.geb callbacks last httpCalls reads writes logged].

(** The paths of a task, one goal for each. *)
Ltac by_path st :=
  run_task;
  destruct (readAnswer _ _ _) as [[err|buffer] w1]; run_task;
  [|destruct (requestAnswer _ _) as [[err|statusCode resBody] w2]; run_task;
    [destruct (Nat.ltb_spec ERROR_THRESHOLD (S (currentErrors st))); run_task
    |destruct (decide (100 <= statusCode < 300)%Z) as [Hin|Hout];
      [rewrite (proj2 (status_range statusCode) Hin); run_task;
       destruct (writeAnswer _ _ _ _) as [[err|] w3]; run_task;
       [|destruct (Nat.ltb_spec 0 (currentErrors st)); run_task]
      |destruct (_ || _) eqn:Hcode;
        [run_task; destruct (Nat.ltb_spec ERROR_THRESHOLD (S (currentErrors st))); run_task
        |apply status_range in Hcode; contradiction]]]].

(** X3: a task issues at most one HTTP request, and none when the read of
    the preview fails; the request is a POST to the API URL followed by the
    API path, of content type image/jpeg, with the bytes read as its body
    and the configured timeout in milliseconds. *)
Theorem task_requests_once (st : State W) (entry : Entry) :
  httpCalls (trace (exec (runTask cfg entry) st))
  = httpCalls (trace st)
    ++ match readAnswer (world st) entry
               (getEntryFileBySuffixes (world st) entry (imagePreviewSuffixes cfg)) with
       | (inl _, _) => []
       | (inr buffer, _) => [postOf cfg buffer]
       end.
Proof.
  by_path st; rewrite !httpCalls_app; cbn; rewrite ?app_nil_r; reflexivity.
Qed.

(** X4: a task writes to the store only after a response with a status in
    [100, 300): then it writes once, the body of the response as it came,
    under the output suffix of the entry; after a failed read, a transport
    error or any other status it writes nothing. *)
Theorem task_writes_accepted_body (st : State W) (entry : Entry) :
  writes (trace (exec (runTask cfg entry) st))
  = writes (trace st)
    ++ match readAnswer (world st) entry
               (getEntryFileBySuffixes (world st) entry (imagePreviewSuffixes cfg)) with
       | (inl _, _) => []
       | (inr buffer, w1) =>
           match requestAnswer w1 (postOf cfg buffer) with
           | (TransportError _, _) => []
           | (HttpResponse statusCode resBody, _) =>
               if decide (100 <= statusCode < 300)%Z
               then [(entry, entrySuffix cfg, resBody)]
               else []
           end
       end.
Proof.
  by_path st; rewrite ?decide_True by assumption; rewrite ?decide_False by assumption;
    rewrite !writes_app; cbn; rewrite ?app_nil_r; reflexivity.
Qed.

(** X5: [getEntryFileBySuffixes] gives the first suffix, in the order of the
    list, that exists for the entry: it exists, every suffix before it does
    not, and the result is undefined exactly when no suffix of the list
    exists. *)
Theorem getEntryFileBySuffixes_first (w : W) (entry : Entry) (suffixes : list string) :
  (forall suffix,
     getEntryFileBySuffixes w entry suffixes = Some suffix <->
     exists before after,
       suffixes = before ++ suffix :: after
       /\ hasEntryFile w entry suffix = true
       /\ Forall (fun earlier => hasEntryFile w entry earlier = false) before)
  /\ (getEntryFileBySuffixes w entry suffixes = None <->
      Forall (fun suffix => hasEntryFile w entry suffix = false) suffixes).
Proof.
  unfold getEntryFileBySuffixes. split.
  - induction suffixes as [|s rest IH]; intros suffix; cbn [find].
    + split; [discriminate|]. intros (before & after & Heq & _).
      destruct before; discriminate.
    + destruct (hasEntryFile w entry s) eqn:Hs.
      * split.
        -- intros [= <-]. exists [], rest. auto.
        -- intros (before & after & Heq & Hhas & Hbefore).
           destruct before as [|b before]; cbn in Heq; injection Heq as <- Hrest.
           ++ reflexivity.
           ++ apply Forall_cons in Hbefore as [Hb _]. congruence.
      * rewrite IH. split.
        -- intros (before & after & -> & Hhas & Hbefore).
           exists (s :: before), after. repeat split; [exact Hhas|].
           constructor; assumption.
        -- intros (before & after & Heq & Hhas & Hbefore).
           destruct before as [|b before]; cbn in Heq; injection Heq as <- Hrest.
           ++ congruence.
           ++ apply Forall_cons in Hbefore as [_ Hbefore].
              exists before, after. auto.
  - rewrite List.Forall_forall. apply getEntryFileBySuffixes_None.
Qed.

(** X6: a task reads once, and what it reads is the first configured input
    suffix that exists for the entry when the task starts; for an entry that
    has just passed the predicate this is a configured suffix, not empty,
    that exists, so that the read is never one of an undefined suffix. *)
Theorem task_reads_first_present (st : State W) (entry : Entry) :
  reads (trace (exec (runTask cfg entry) st))
  = reads (trace st)
    ++ [(entry, getEntryFileBySuffixes (world st) entry (imagePreviewSuffixes cfg))]
  /\ (test cfg st entry = true ->
      exists suffix,
        getEntryFileBySuffixes (world st) entry (imagePreviewSuffixes cfg) = Some suffix
        /\ suffix <> EmptyString
        /\ In suffix (imagePreviewSuffixes cfg)
        /\ hasEntryFile (world st) entry suffix = true).
Proof.
  split.
  - by_path st; rewrite !reads_app; cbn; rewrite ?app_nil_r; reflexivity.
  - intros Htest. apply test_true_iff in Htest as (_ & (suffix & Hfound & Hne) & _).
    exists suffix. split; [exact Hfound|]. split; [exact Hne|].
    apply getEntryFileBySuffixes_Some. exact Hfound.
Qed.

(** X7: what a task logs.  A task that has written the result logs one line
    at debug level and nothing at warn or error level.  A task that has not
    logs one line about it: at error level for a status outside [100, 300),
    at warn level for a failed read, a transport error or a failed write;
    and a remote failure that leaves the counter above 5 adds the warning of
    the budget. *)
Theorem task_logs_by_outcome (st : State W) (entry : Entry) :
  length (logged LError (trace (exec (runTask cfg entry) st)))
  = length (logged LError (trace st))
    + match outcome cfg st entry with BadStatus _ => 1 | _ => 0 end
  /\ length (logged LDebug (trace (exec (runTask cfg entry) st)))
     = length (logged LDebug (trace st))
       + match outcome cfg st entry with Written => 1 | _ => 0 end
  /\ length (logged LWarn (trace (exec (runTask cfg entry) st)))
     = length (logged LWarn (trace st))
       + match outcome cfg st entry with
         | ReadFailed _ | WriteFailed _ => 1
         | TransportFailed _ => 1 + (if (ERROR_THRESHOLD <=? currentErrors st)%nat then 1 else 0)
         | BadStatus _ => if (ERROR_THRESHOLD <=? currentErrors st)%nat then 1 else 0
         | Written => 0
         end.
Proof.
  unfold outcome.
  destruct (Nat.leb_spec ERROR_THRESHOLD (currentErrors st));
    by_path st; rewrite ?decide_True by assumption; rewrite ?decide_False by assumption;
    rewrite !logged_app, !length_app;
    cbn; repeat (case_decide; try congruence); cbn;
    unfold ERROR_THRESHOLD in *; repeat split; lia.
Qed.

Lemma test_output_exists (st : State W) (entry : Entry) :
  hasEntryFile (world st) entry (entrySuffix cfg) = true -> test cfg st entry = false.
Proof.
  intros Hout. unfold test. destruct (_ <? _)%nat; [reflexivity|].
  rewrite Hout, orb_true_r. reflexivity.
Qed.

(** X8: with a store in which a file that has been written exists, an entry
    whose task has written its result does not pass the predicate again: no
    entry is sent to the API a second time. *)
Theorem written_entry_is_not_eligible (st : State W) (entry : Entry) :
  (forall w e suffix data w',
     writeAnswer w e suffix data = (None, w') -> hasEntryFile w' e suffix = true) ->
  outcome cfg st entry = Written ->
  test cfg (exec (runTask cfg entry) st) entry = false.
Proof.
  intros Hkeeps Hwritten. apply test_output_exists.
  unfold outcome in Hwritten. run_task.
  destruct (readAnswer _ _ _) as [[err|buffer] w1]; [discriminate|]. run_task.
  destruct (requestAnswer _ _) as [[err|statusCode resBody] w2]; [discriminate|]. run_task.
  destruct (decide (100 <= statusCode < 300)%Z) as [Hin|Hout]; [|discriminate].
  rewrite (proj2 (status_range statusCode) Hin). run_task.
  destruct (writeAnswer _ _ _ _) as [[err|] w3] eqn:Hwrite; [discriminate|]. run_task.
  destruct (Nat.ltb_spec 0 (currentErrors st)); run_task;
    exact (Hkeeps _ _ _ _ _ Hwrite).
Qed.

End TaskInputOutput.

Lemma MemWorld_keeps_writes (w : MemWorld) (e : Entry) (suffix : string) (data : Buffer)
    (w' : MemWorld) :
  writeAnswer w e suffix data = (None, w') -> hasEntryFile w' e suffix = true.
Proof.
  cbn. destruct (writable w); [|discriminate]. intros [= <-]. cbn.
  rewrite lookup_insert_eq. reflexivity.
Defined.

(** X8 for the first photo of the album and a server that answers 200. *)
Lemma written_entry_is_not_eligible_witness :
  test (objectsConfig previews) (mkState (albumStore [ok]) 0 []) (nth_photo 1) = true
  /\ test (objectsConfig previews)
       (exec (runTask (objectsConfig previews) (nth_photo 1)) (mkState (albumStore [ok]) 0 []))
       (nth_photo 1) = false.
Proof.
  split; [vm_compute; reflexivity|].
  apply (written_entry_is_not_eligible (objectsConfig previews)
           (mkState (albumStore [ok]) 0 []) (nth_photo 1)).
  - exact MemWorld_keeps_writes.
  - vm_compute. reflexivity.
Defined.

(** ** Configuration of the adapters *)

Section AdapterConfiguration.
Context {W : Type} `{!EntryStore W} `{!HttpClient W}.

Lemma isDisabled_no_block (config : option Config) (feature : string) :
  optApiServer config = None -> isDisabled config feature = false.
Proof. intros Hnone. unfold isDisabled. rewrite Hnone. reflexivity. Qed.

(** X9: a feature is disabled exactly when the [disable] setting is its name
    or an array with its name among the elements.  A configuration without
    the setting, or without the [apiServer] or [extractor] block around it,
    or no configuration at all, disables nothing, and neither does the name
    of another feature. *)
Theorem isDisabled_exactly_when_named (config : option Config) (feature : string) :
  (feature <> EmptyString ->
   (isDisabled config feature = true <-> disabledIn config feature))
  /\ (optApiServer config = None -> isDisabled config feature = false)
  /\ (forall a other,
        optApiServer config = Some a ->
        ApiServer.disable a = VUndefined \/ ApiServer.disable a = VString other ->
        other <> feature ->
        isDisabled config feature = false).
Proof.
  split; [apply isDisabled_iff|]. split; [apply isDisabled_no_block|].
  intros a other Ha Hsetting Hother. unfold isDisabled. rewrite Ha.
  destruct Hsetting as [-> | ->]; cbn; [reflexivity|].
  destruct (String.eqb_spec other EmptyString); cbn; [reflexivity|].
  apply String.eqb_neq. exact Hother.
Qed.




End AdapterConfiguration.


Section EnabledAdapter.
Context {W : Type} `{!EntryStore W} `{!HttpClient W}.
Variable sizeToImagePreviewSuffix : Z -> string.

Lemma adapter_dispatcher (feature disabledMessage featureName path outputSuffix : string)
    (common : Common) (config : option Config) (a : ApiServer.t) (st : State W) :
  optApiServer config = Some a ->
  isDisabled config feature = false ->
  exists cfg : DispatcherConfig,
    fst (adapter sizeToImagePreviewSuffix feature disabledMessage featureName path outputSuffix
           common config st)
    = Return (parallel (conditionalTask (test cfg) (task cfg)) (concurrent cfg))
    /\ apiServerUrl cfg = render (ApiServer.url a)
    /\ apiPath cfg = path
    /\ entrySuffix cfg = outputSuffix
    /\ concurrent cfg = ApiServer.concurrent a
    /\ timeout cfg = ApiServer.timeout a
    /\ forall suffix,
         In suffix (imagePreviewSuffixes cfg) <->
         exists size, In size (imagePreviewSizes common) /\ (size <= 800)%Z
                      /\ suffix = sizeToImagePreviewSuffix size.
Proof.
  intros Hsome Hen. unfold adapter. rewrite Hen.
  destruct config as [c|]; [|discriminate].
  destruct (extractor c) as [e|] eqn:He; cbn in Hsome; rewrite He in Hsome; [|discriminate].
  cbn in Hsome. rewrite Hsome.
  eexists. split; [reflexivity|]. cbn. repeat split; try reflexivity.
  - intros Hin. apply in_map_iff in Hin as (size & <- & Hsize).
    apply list_elem_of_In, list_elem_of_filter in Hsize as [Hle Hsize].
    exists size. split; [apply list_elem_of_In; exact Hsize|].
    split; [apply Z.leb_le; exact Hle | reflexivity].
  - intros (size & Hsize & Hle & ->). apply in_map.
    apply list_elem_of_In, list_elem_of_filter. split.
    + apply Z.leb_le. exact Hle.
    + apply list_elem_of_In. exact Hsize.
Qed.

(** X11: the dispatcher of an enabled adapter posts to the configured URL
    followed by the path of the feature ('/embeddings', '/objects',
    '/faces'), stores under the suffix of the feature, takes concurrency and
    timeout from the configuration, and accepts as input exactly the
    suffixes of the configured preview sizes that are at most 800. *)
Theorem enabled_adapter_dispatcher (feature path outputSuffix : string)
    (featureAdapter : Common -> option Config -> Eff W (Completion (Stage W)))
    (common : Common) (config : option Config) (a : ApiServer.t) (st : State W) :
  In (feature, path, outputSuffix, featureAdapter)
     [("similarDetection", "/embeddings", "similarity-embeddings.json",
       similarEmbeddings sizeToImagePreviewSuffix);
      ("objectDetection", "/objects", "objects.json",
       objectDetection sizeToImagePreviewSuffix);
      ("faceDetection", "/faces", "faces.json",
       faceDetection sizeToImagePreviewSuffix)] ->
  optApiServer config = Some a ->
  isDisabled config feature = false ->
  exists cfg : DispatcherConfig,
    fst (featureAdapter common config st)
    = Return (parallel (conditionalTask (test cfg) (task cfg)) (concurrent cfg))
    /\ apiServerUrl cfg = render (ApiServer.url a)
    /\ apiPath cfg = path
    /\ entrySuffix cfg = outputSuffix
    /\ concurrent cfg = ApiServer.concurrent a
    /\ timeout cfg = ApiServer.timeout a
    /\ forall suffix,
         In suffix (imagePreviewSuffixes cfg) <->
         exists size, In size (imagePreviewSizes common) /\ (size <= 800)%Z
                      /\ suffix = sizeToImagePreviewSuffix size.
Proof.
  intros Hwhich.
  destruct Hwhich as [[= <- <- <- <-] | [[= <- <- <- <-] | [[= <- <- <- <-] | []]]];
    apply adapter_dispatcher.
Qed.

End EnabledAdapter.

(** X11 for object detection with previews of 1920, 800 and 320. *)
Lemma enabled_adapter_dispatcher_witness :
  exists cfg : DispatcherConfig,
    fst (objectDetection previewSuffix {| imagePreviewSizes := [1920; 800; 320]%Z |}
           (configWith (VString "faceDetection")) (eligibleAt 3))
    = Return (parallel (conditionalTask (test cfg) (task cfg)) (concurrent cfg))
    /\ apiPath cfg = "/objects"
    /\ entrySuffix cfg = "objects.json"
    /\ In "image-preview-320.jpg" (imagePreviewSuffixes cfg).
Proof.
  destruct (enabled_adapter_dispatcher previewSuffix "objectDetection" "/objects" "objects.json"
              (objectDetection previewSuffix) {| imagePreviewSizes := [1920; 800; 320]%Z |}
              (configWith (VString "faceDetection"))
              {| ApiServer.url := Some "https://api.home-gallery.org";
                 ApiServer.timeout := 30;
                 ApiServer.concurrent := 5;
                 ApiServer.disable := VString "faceDetection" |}
              (eligibleAt 3))
    as (cfg & Hstage & _ & Hpath & Hsuffix & _ & _ & Hinputs).
  - right. left. reflexivity.
  - reflexivity.
  - reflexivity.
  - exists cfg. split; [exact Hstage|]. split; [exact Hpath|]. split; [exact Hsuffix|].
    apply Hinputs. exists 320%Z. split; [right; right; left; reflexivity|].
    split; [lia | vm_compute; reflexivity].
Defined.

(** ** The privacy hint *)

Lemma prefix_append (p s : string) :
  String.prefix p s = true <-> exists rest, s = p +:+ rest.
Proof.
  revert s. induction p as [|c p IH]; intros s.
  - split; [intros _; exists s; reflexivity | intros _; destruct s; reflexivity].
  - destruct s as [|c' s]; cbn; [split; [discriminate | intros (rest & [=])]|].
    destruct (Ascii.ascii_dec c c') as [<-|Hne].
    + rewrite IH. split; intros (rest & Hrest); exists rest.
      * rewrite Hrest. reflexivity.
      * change (String c p +:+ rest) with (String c (p +:+ rest)) in Hrest.
        injection Hrest as Hrest. exact Hrest.
    + split; [discriminate|]. intros (rest & Hrest).
      change (String c p +:+ rest) with (String c (p +:+ rest)) in Hrest.
      injection Hrest as Hc _. congruence.
Qed.

Section PrivacyHint.
Context {W : Type}.

(** X12: [logPublicApiPrivacyHint] logs the privacy warning exactly when the
    configured URL is the address of the public server followed by
    anything, and then no debug line; for any other URL, and for a missing
    one, it logs the debug line that names the server and no warning. *)
Theorem privacy_warning_for_public_server (config : option Config) (a : ApiServer.t)
    (st : State W) :
  optApiServer config = Some a ->
  ((exists rest, ApiServer.url a = Some (PUBLIC_API_SERVER +:+ rest)) ->
   logged LWarn (trace (snd (logPublicApiPrivacyHint config st)))
   = logged LWarn (trace st)
     ++ ["You are using the public api server " +:+ render (ApiServer.url a)
         +:+ ". Please read its documentation at " +:+ DOCUMENATION_URL
         +:+ " for privacy concerns"]
   /\ logged LDebug (trace (snd (logPublicApiPrivacyHint config st)))
      = logged LDebug (trace st))
  /\ (~ (exists rest, ApiServer.url a = Some (PUBLIC_API_SERVER +:+ rest)) ->
      logged LWarn (trace (snd (logPublicApiPrivacyHint config st)))
      = logged LWarn (trace st)
      /\ logged LDebug (trace (snd (logPublicApiPrivacyHint config st)))
         = logged LDebug (trace st) ++ ["Use api server " +:+ render (ApiServer.url a)]).
Proof.
  intros Ha. unfold logPublicApiPrivacyHint. rewrite Ha. cbv zeta.
  assert (Hpublic :
    match ApiServer.url a with
    | Some u => String.prefix PUBLIC_API_SERVER u
    | None => false
    end = true <-> exists rest, ApiServer.url a = Some (PUBLIC_API_SERVER +:+ rest)).
  { destruct (ApiServer.url a) as [u|].
    - rewrite prefix_append. split; intros (rest & Hrest); exists rest; congruence.
    - split; [discriminate | intros (rest & [=])]. }
  destruct (match ApiServer.url a with Some u => _ | None => _ end).
  - split; [|intros Hnot; destruct Hnot; apply Hpublic; reflexivity].
    intros _. unfold mbind, Eff_bind, logAt, emit, mret, Eff_ret. cbn -[logged].
    rewrite !logged_app. cbn. rewrite !app_nil_r.
    repeat (case_decide; try congruence). auto.
  - split; [intros Hyes; apply Hpublic in Hyes; discriminate|].
    intros _. unfold mbind, Eff_bind, logAt, emit, mret, Eff_ret. cbn -[logged].
    rewrite !logged_app. cbn. rewrite !app_nil_r.
    repeat (case_decide; try congruence). auto.
Qed.

End PrivacyHint.

(** X12 for a host whose name only begins like the public server, and for a
    local server. *)
Lemma privacy_warning_for_public_server_witness :
  length (logged LWarn (trace (snd (logPublicApiPrivacyHint
            (configAt (Some "https://api.home-gallery.org.example.com")) (eligibleAt 0))))) = 1
  /\ logged LWarn (trace (snd (logPublicApiPrivacyHint
            (configAt (Some "http://localhost:3000")) (eligibleAt 0)))) = [].
Proof.
  split.
  - destruct (privacy_warning_for_public_server
                (configAt (Some "https://api.home-gallery.org.example.com"))
                {| ApiServer.url := Some "https://api.home-gallery.org.example.com";
                   ApiServer.timeout := 30;
                   ApiServer.concurrent := 5;
                   ApiServer.disable := VUndefined |}
                (eligibleAt 0) eq_refl) as [Hpublic _].
    destruct Hpublic as [Hwarn _]; [exists ".example.com"; reflexivity|].
    rewrite Hwarn. reflexivity.
  - destruct (privacy_warning_for_public_server
                (configAt (Some "http://localhost:3000"))
                {| ApiServer.url := Some "http://localhost:3000";
                   ApiServer.timeout := 30;
                   ApiServer.concurrent := 5;
                   ApiServer.disable := VUndefined |}
                (eligibleAt 0) eq_refl) as [_ Hother].
    destruct Hother as [Hwarn _]; [intros (rest & Hrest); discriminate Hrest|].
    rewrite Hwarn. reflexivity.
Defined.

(** ** More of writeIndex *)

Section SortedInput.
Context {A : Type} (compareFn : A -> A -> Z).

Lemma insertBy_first (x : A) (l : list A) :
  Forall (fun y => (compareFn x y <= 0)%Z) l -> insertBy compareFn x l = x :: l.
Proof.
  destruct 1 as [|y l Hxy _]; cbn [insertBy]; [reflexivity|].
  apply Z.leb_le in Hxy. rewrite Hxy. reflexivity.
Qed.

Lemma array_sort_sorted (l : list A) :
  StronglySorted (fun a b => (compareFn a b <= 0)%Z) l -> array_sort compareFn l = l.
Proof.
  induction 1 as [|x l Hsorted IH Hall]; cbn [array_sort foldr]; [reflexivity|].
  fold (array_sort compareFn l). rewrite IH. apply insertBy_first. exact Hall.
Qed.

End SortedInput.

Lemma array_sort_byDirDescFileAsc_idempotent (elements : list IndexEntry) :
  array_sort byDirDescFileAsc (array_sort byDirDescFileAsc elements)
  = array_sort byDirDescFileAsc elements.
Proof.
  apply array_sort_sorted.
  eapply StronglySorted_weaken; [|apply sorted_byDirDescFileAsc].
  intros a b. apply byDirDescFileAsc_le.
Qed.

Section WriteIndexMore.
Context {F : Type} `{!FileSystem F}.
Variable resolve : string -> string.

(** X13: [writeIndex] on an array that a call has already sorted leaves all
    arrays as they are, whatever the directory, the file name, the options
    and the time of the two calls; an array of no entries stays empty. *)
Theorem writeIndex_twice (now now' directory directory' filename filename' : string)
    (entries : Ref) (options options' : WriteOptions) (m : Machine F) :
  heap (snd (writeIndex resolve now' directory' filename' entries options'
               (snd (writeIndex resolve now directory filename entries options m))))
  = heap (snd (writeIndex resolve now directory filename entries options m))
  /\ (heap m !! entries = Some [] ->
      heap (snd (writeIndex resolve now directory filename entries options m)) = heap m).
Proof.
  split.
  - destruct (heap m !! entries) as [elements|] eqn:Hentries.
    + assert (Hfirst := writeIndex_heap resolve now directory filename entries options m
                          elements Hentries).
      rewrite (writeIndex_heap resolve now' directory' filename' entries options' _
                 (array_sort byDirDescFileAsc elements)).
      * rewrite Hfirst, array_sort_byDirDescFileAsc_idempotent.
        apply insert_insert_eq.
      * rewrite Hfirst. apply lookup_insert_eq.
    + unfold writeIndex at 2. rewrite Hentries. cbn [snd].
      unfold writeIndex. rewrite Hentries. reflexivity.
  - intros Hempty.
    rewrite (writeIndex_heap resolve now directory filename entries options m [] Hempty).
    cbn [array_sort foldr]. apply insert_id. exact Hempty.
Qed.

(** X14: for an array of entries, the promise of [writeIndex] is rejected
    exactly when the call is not a dry run and [writeJsonGzip] reports an
    error for the serialized index, and the reason is that error; a dry run
    is never rejected and leaves the file system as it is. *)
Theorem writeIndex_rejects_on_write_error (now directory filename : string)
    (entries : Ref) (options : WriteOptions) (m : Machine F)
    (elements : list IndexEntry) :
  heap m !! entries = Some elements ->
  (forall reason,
     fst (writeIndex resolve now directory filename entries options m) = Rejected reason
     <-> dryRun options = false
         /\ fst (writeJsonGzip (fs m) filename
                   {| doc_type := "home-gallery/fileindex@1.0";
                      doc_created := now;
                      doc_base := resolve directory;
                      doc_data := array_sort byDirDescFileAsc elements |}) = Some reason)
  /\ (dryRun options = true ->
      fs (snd (writeIndex resolve now directory filename entries options m)) = fs m).
Proof.
  intros Hentries. unfold writeIndex. rewrite Hentries.
  replace (stringify (<[entries := array_sort byDirDescFileAsc elements]> (heap m))
             {| Index.type := "home-gallery/fileindex@1.0";
                Index.created := now;
                Index.base := resolve directory;
                Index.data := entries |})
    with {| doc_type := "home-gallery/fileindex@1.0";
            doc_created := now;
            doc_base := resolve directory;
            doc_data := array_sort byDirDescFileAsc elements |}
    by (unfold stringify; cbn; rewrite lookup_insert_eq; reflexivity).
  destruct (dryRun options).
  - split; [|reflexivity]. intros reason. split; [discriminate | intros [[=] _]].
  - split; [|discriminate]. intros reason.
    destruct (writeJsonGzip _ _ _) as [[reason'|] fs']; cbn [fst].
    + split; [intros [= <-]; auto | intros [_ [= <-]]; reflexivity].
    + split; [discriminate | intros [_ [=]]].
Qed.

End WriteIndexMore.

(** X14 on a full disk. *)
Lemma writeIndex_rejects_on_write_error_witness :
  fst (writePictures false true) = Rejected "ENOSPC"
  /\ fs (snd (writePictures true true)) = mkMemFs ∅ true.
Proof.
  split.
  - apply (writeIndex_rejects_on_write_error (resolveIn "/home/user")
             "2024-05-01T10:00:00.000Z" "Pictures" "/home/user/.config/pictures.idx" 7
             {| dryRun := false |} (machineWith true) unsortedEntries);
      [vm_compute; reflexivity|].
    split; reflexivity.
  - apply (writeIndex_rejects_on_write_error (resolveIn "/home/user")
             "2024-05-01T10:00:00.000Z" "Pictures" "/home/user/.config/pictures.idx" 7
             {| dryRun := true |} (machineWith true) unsortedEntries);
      [vm_compute; reflexivity | reflexivity].
Defined.

(** ** The counter under concurrency *)

Section CounterBound.
Context {W : Type} `{!EntryStore W} `{!HttpClient W}.
Variable cfg : DispatcherConfig.

Lemma raisesAtMostOnce_Finished (fuel : nat) : raisesAtMostOnce fuel (@Finished W).
Proof.
  destruct fuel as [|fuel]; cbn; [reflexivity|].
  intros st. left. split; [reflexivity | lia].
Qed.

Lemma raisesAtMostOnce_more (fuel : nat) (p : Proc W) :
  raisesAtMostOnce fuel p -> raisesAtMostOnce (S fuel) p.
Proof.
  revert p. induction fuel as [|fuel IH]; intros p Hp.
  - cbn in Hp. subst p. apply raisesAtMostOnce_Finished.
  - intros st. destruct (Hp st) as [Hend | [Hle Hrest]]; [left; exact Hend|].
    right. split; [exact Hle | apply IH; exact Hrest].
Qed.

Ltac run_turn :=
  unfold complete, exec, task, readEntryFile, request, writeEntryFile, addError,
    recordSuccess, logAt, cb, emit, getWorld, setWorld, getErrors, setErrors,
    mbind, Eff_bind, mret, Eff_ret;
  cbn -[Nat.ltb Z.ltb Z.geb raisesAtMostOnce].

Lemma task_raisesAtMostOnce (st : State W) (entry : Entry) :
  currentErrors (snd (task cfg entry st)) = currentErrors st
  /\ raisesAtMostOnce 3 (fst (task cfg entry st)).
Proof.
  run_turn. split; [reflexivity|].
  intros st1. run_turn.
  destruct (readAnswer _ _ _) as [[err|buffer] w1]; run_turn.
  { left. split; [reflexivity | lia]. }
  right. split; [lia|].
  intros st2. run_turn.
  destruct (requestAnswer _ _) as [[err|statusCode resBody] w2]; run_turn.
  { left. destruct (_ <? _)%nat; run_turn; split; (reflexivity || lia). }
  destruct (_ || _); run_turn.
  { left. destruct (_ <? _)%nat; run_turn; split; (reflexivity || lia). }
  right. split; [lia|].
  intros st3. run_turn. left.
  destruct (writeAnswer _ _ _ _) as [[err|] w3]; run_turn.
  - split; [reflexivity | lia].
  - destruct (Nat.ltb_spec 0 (currentErrors st3)); run_turn; split; (reflexivity || lia).
Qed.

Lemma turn_withinBudget (l l' : Loop W) (t : Turn) :
  withinBudget (concurrent cfg) l ->
  dispatch cfg l [t] = Some l' ->
  withinBudget (concurrent cfg) l'.
Proof.
  intros [Hsum Hall]. unfold dispatch. cbn [turns]. unfold turn.
  destruct t as [entry|i].
  - destruct (Z.ltb_spec (Z.of_nat (length (inflight l))) (concurrent cfg)) as [Hroom|];
      [|discriminate].
    unfold conditionalTask, mbind, Eff_bind, getState.
    destruct (test cfg (machine l) entry) eqn:Htest.
    + destruct (task_raisesAtMostOnce (machine l) entry) as [Hc Hp].
      destruct (task cfg entry (machine l)) as [p st]. cbn [fst snd] in Hc, Hp.
      apply test_true_iff in Htest as (Hle & _).
      destruct (isFinished p); intros [= <-]; unfold withinBudget; cbn [machine inflight].
      * split; [|exact Hall].
        unfold exec, cbWith, emit. cbn [snd currentErrors]. rewrite Hc. lia.
      * split.
        -- rewrite length_app, Hc. cbn [length]. lia.
        -- apply Forall_app. split; [exact Hall|]. constructor; [exact Hp | constructor].
    + unfold cb, cbWith, exec, emit, mbind, Eff_bind, mret, Eff_ret. cbn.
      intros [= <-]. split; [exact Hsum | exact Hall].
  - destruct (inflight l !! i) as [[entry p]|] eqn:Hi; [|discriminate].
    assert (Hp : raisesAtMostOnce 3 p).
    { rewrite List.Forall_forall in Hall.
      apply (Hall (entry, p)). apply list_elem_of_In.
      apply list_elem_of_lookup. exists i. exact Hi. }
    assert (Hlen : (0 < length (inflight l))%nat).
    { apply lookup_lt_Some in Hi. lia. }
    specialize (Hp (machine l)).
    destruct (complete p (machine l)) as [p' st]. cbn [fst snd] in Hp.
    destruct Hp as [[-> Hle] | [Hle Hrest]].
    + cbn [isFinished]. intros [= <-]. unfold withinBudget; cbn [machine inflight].
      assert (Hsome : is_Some (inflight l !! i)) by (rewrite Hi; eauto).
      pose proof (length_delete (inflight l) i Hsome) as Hdel.
      split.
      * unfold exec, cbWith, emit. cbn [snd currentErrors]. lia.
      * apply Forall_delete. exact Hall.
    + destruct (isFinished p'); intros [= <-]; unfold withinBudget; cbn [machine inflight].
      * assert (Hsome : is_Some (inflight l !! i)) by (rewrite Hi; eauto).
        pose proof (length_delete (inflight l) i Hsome) as Hdel.
        split.
        -- unfold exec, cbWith, emit. cbn [snd currentErrors]. lia.
        -- apply Forall_delete. exact Hall.
      * split.
        -- rewrite length_insert. lia.
        -- apply Forall_insert; [exact Hall|]. cbn [snd].
           exact (raisesAtMostOnce_more 2 p' Hrest).
Qed.

Lemma turns_withinBudget (ts : list Turn) (l l' : Loop W) :
  withinBudget (concurrent cfg) l ->
  dispatch cfg l ts = Some l' ->
  withinBudget (concurrent cfg) l'.
Proof.
  revert l. induction ts as [|t rest IH]; intros l Hl; unfold dispatch in *; cbn [turns].
  - intros [= <-]. exact Hl.
  - destruct (turn _ _ l t) as [l1|] eqn:Hturn; [|discriminate].
    apply IH. apply (turn_withinBudget l l1 t Hl).
    unfold dispatch. cbn [turns]. rewrite Hturn. reflexivity.
Qed.

(** X15: a dispatcher that starts with a counter of at most 5 and no task in
    flight keeps the counter, together with the number of tasks in flight,
    within 5 plus the limit of concurrency, whatever the order in which
    entries arrive and calls complete and whatever the answers: the counter
    never exceeds the threshold by more than the number of tasks that may
    run at once. *)
Theorem counter_within_threshold_and_limit (ts : list Turn) (st : State W) (l' : Loop W) :
  currentErrors st <= ERROR_THRESHOLD ->
  (0 <= concurrent cfg)%Z ->
  dispatch cfg (mkLoop st []) ts = Some l' ->
  (Z.of_nat (currentErrors (machine l')) + Z.of_nat (length (inflight l'))
   <= Z.of_nat ERROR_THRESHOLD + concurrent cfg)%Z.
Proof.
  intros Hstart Hlimit Hrun.
  apply (turns_withinBudget ts (mkLoop st []) l'); [|exact Hrun].
  split; cbn [machine inflight length]; [lia | constructor].
Qed.

End CounterBound.

(** X15 is tight: with a limit of 2, seven failed requests take the counter
    to 7. *)
Lemma counter_within_threshold_and_limit_witness :
  exists l',
    dispatch (objectsConfig previews) (start (repeat serverError 7))
      (fiveThenTwo ++ completions 4) = Some l'
    /\ currentErrors (machine l') = 7
    /\ (Z.of_nat (currentErrors (machine l')) + Z.of_nat (length (inflight l'))
        <= Z.of_nat ERROR_THRESHOLD + 2)%Z.
Proof.
  assert (Hcount :
    (fun l => currentErrors (machine l))
      <$> dispatch (objectsConfig previews) (start (repeat serverError 7))
            (fiveThenTwo ++ completions 4) = Some 7)
    by (vm_compute; reflexivity).
  destruct (dispatch (objectsConfig previews) (start (repeat serverError 7))
              (fiveThenTwo ++ completions 4)) as [l'|] eqn:Hrun; [|discriminate Hcount].
  exists l'. split; [reflexivity|]. split; [injection Hcount as Hcount; exact Hcount|].
  apply (counter_within_threshold_and_limit (objectsConfig previews)
           (fiveThenTwo ++ completions 4) (mkState (albumStore (repeat serverError 7)) 0 []) l').
  - unfold ERROR_THRESHOLD. cbn. lia.
  - cbn. lia.
  - exact Hrun.
Defined.
